(** * babel.localedata: the load-merge-cache engine and the alias-resolving view

    A shallow embedding of [babel/localedata.py].  Python objects live in an
    explicit heap so that identity ([is]), aliasing and in-place mutation are
    visible; every function of the module threads the interpreter state and
    may raise. *)

From Stdlib Require Import String Ascii List Arith Lia Bool.
From stdpp Require Import base option list strings.
Import ListNotations.
Local Open Scope string_scope.
Local Open Scope list_scope.

(* ===================================================================== *)
(** ** Values and objects *)

Abbreviation key := string.
Abbreviation addr := nat.

(** A value as the locale data has it.  [None], scalars, [Alias] objects and
    the [(alias, others)] tuples are immutable, so they are carried by value;
    a dict or a [LocaleDataDict] is mutable and is a reference into the heap.
    An [Alias] is represented by its [keys] tuple. *)
Inductive value : Type :=
  | VNone
  | VScalar (payload : string)
  | VAlias (keys : list key)
  | VTuple (alias : list key) (others : value)
  | VRef (a : addr).

(** A Python dict: insertion ordered, one entry per key. *)
Abbreviation pydict K V := (list (K * V)).

Inductive obj : Type :=
  | ODict (items : pydict key value)
  | OView (_data : value) (base : value).

Abbreviation heap := (list obj).

#[global] Instance value_eq_dec : EqDecision value.
Proof. solve_decision. Defined.

Section PyDict.
Context {K V : Type} `{EqDecision K}.

(** [d.get(k)] *)
Fixpoint dict_get (d : pydict K V) (k : K) : option V :=
  match d with
  | [] => None
  | (k', v) :: d' => if decide (k' = k) then Some v else dict_get d' k
  end.

(** [d[k] = v]: overwrite in place, or append a new entry. *)
Fixpoint dict_set (d : pydict K V) (k : K) (v : V) : pydict K V :=
  match d with
  | [] => [(k, v)]
  | (k', v') :: d' =>
      if decide (k' = k) then (k', v) :: d' else (k', v') :: dict_set d' k v
  end.
End PyDict.

(* ===================================================================== *)
(** ** Exceptions and the interpreter monad *)

Inductive exn : Type :=
  | KeyError | TypeError | AttributeError | IOError.

#[global] Instance exn_eq_dec : EqDecision exn.
Proof. solve_decision. Defined.

(** The outcome of running a piece of code from a state [S]: a result with
    the new state, an exception with the state at the point of the raise
    (mutations made before the raise persist), or exhaustion of the
    recursion budget. *)
Inductive outcome (S A : Type) : Type :=
  | Ret (a : A) (s : S)
  | Raise (e : exn) (s : S)
  | Diverge.
Arguments Ret {S A} a s.
Arguments Raise {S A} e s.
Arguments Diverge {S A}.

Definition M (S A : Type) := S -> outcome S A.

Definition ret {S A} (a : A) : M S A := fun s => Ret a s.
Definition raise {S A} (e : exn) : M S A := fun s => Raise e s.
Definition bind {S A B} (m : M S A) (f : A -> M S B) : M S B :=
  fun s => match m s with
           | Ret a s' => f a s'
           | Raise e s' => Raise e s'
           | Diverge => Diverge
           end.
Definition get_state {S} : M S S := fun s => Ret s s.
Definition put_state {S} (s : S) : M S unit := fun _ => Ret tt s.

Notation "x <- m ;; k" := (bind m (fun x => k))
  (at level 100, m at next level, right associativity).
Notation "m ;;; k" := (bind m (fun _ => k))
  (at level 100, right associativity).

(** [try: m except e: h] *)
Definition catch {S A} (m : M S A) (e : exn) (h : M S A) : M S A :=
  fun s => match m s with
           | Raise e' s' => if decide (e' = e) then h s' else Raise e' s'
           | r => r
           end.

(** [for x in l: f x] *)
Fixpoint for_each {S A} (f : A -> M S unit) (l : list A) : M S unit :=
  match l with
  | [] => ret tt
  | x :: l' => f x ;;; for_each f l'
  end.

(** [[f x for x in l]] *)
Fixpoint map_each {S A B} (f : A -> M S B) (l : list A) : M S (list B) :=
  match l with
  | [] => ret []
  | x :: l' => y <- f x ;; ys <- map_each f l' ;; ret (y :: ys)
  end.

(** [for x in l: acc = f acc x] *)
Fixpoint fold_each {S A B} (f : B -> A -> M S B) (l : list A) (acc : B) : M S B :=
  match l with
  | [] => ret acc
  | x :: l' => acc' <- f acc x ;; fold_each f l' acc'
  end.

(* ===================================================================== *)
(** ** The heap *)

(** A reference that points nowhere cannot arise in Python; the model has no
    outcome for it. *)
Definition lookup_obj (a : addr) : M heap obj :=
  fun h => match h !! a with Some o => Ret o h | None => Diverge end.

(** A new object gets the next free address. *)
Definition alloc (o : obj) : M heap value :=
  fun h => Ret (VRef (List.length h)) (h ++ [o]).

Definition update_obj (a : addr) (o : obj) : M heap unit :=
  fun h => Ret tt (<[a := o]> h).

(** [isinstance(v, dict)]; [LocaleDataDict] derives from
    [abc.MutableMapping], not from [dict], so [type(v) is dict] is the same
    test. *)
Definition is_dict (v : value) : M heap bool :=
  match v with
  | VRef a => o <- lookup_obj a ;;
              ret (match o with ODict _ => true | OView _ _ => false end)
  | _ => ret false
  end.

(** [a is b].  References compare by address.  The immutable values are
    carried by value: wherever the module applies [is], the two operands are
    either the very object that was read, or objects of different kinds, so
    equality of the representation decides identity there. *)
Definition py_is (a b : value) : bool := bool_decide (a = b).

(* ===================================================================== *)
(** ** Open recursion

    The methods of the module call each other ([merge] reads its target with
    [get], which on a [LocaleDataDict] is [__getitem__], which resolves
    aliases and merges).  Each body below takes the functions it calls as a
    record; [interp] ties the knot with a recursion budget. *)

Record funs : Type := {
  f_getitem : value -> key -> M heap value;   (* LocaleDataDict.__getitem__ *)
  f_setitem : value -> key -> value -> M heap unit; (* LocaleDataDict.__setitem__ *)
  f_iter : value -> M heap (list key);        (* LocaleDataDict.__iter__ *)
  f_len : value -> M heap nat;                (* LocaleDataDict.__len__ *)
  f_copy : value -> M heap value;             (* LocaleDataDict.copy *)
  f_resolve : list key -> value -> M heap value; (* Alias.resolve *)
  f_merge : value -> value -> M heap unit     (* merge *)
}.

Section Bodies.
Variable rec : funs.

(** [v[k]] *)
Definition subscript (v : value) (k : key) : M heap value :=
  match v with
  | VRef a =>
      o <- lookup_obj a ;;
      match o with
      | ODict items =>
          match dict_get items k with
          | Some x => ret x
          | None => raise KeyError
          end
      | OView _ _ => f_getitem rec v k
      end
  | _ => raise TypeError
  end.

(** [v[k] = x] *)
Definition assign (v : value) (k : key) (x : value) : M heap unit :=
  match v with
  | VRef a =>
      o <- lookup_obj a ;;
      match o with
      | ODict items => update_obj a (ODict (dict_set items k x))
      | OView _ _ => f_setitem rec v k x
      end
  | _ => raise TypeError
  end.

(** [iter(v)], run to the end *)
Definition iter_keys (v : value) : M heap (list key) :=
  match v with
  | VRef a =>
      o <- lookup_obj a ;;
      match o with
      | ODict items => ret (map fst items)
      | OView _ _ => f_iter rec v
      end
  | _ => raise TypeError
  end.

(** [len(v)] *)
Definition py_len (v : value) : M heap nat :=
  match v with
  | VRef a =>
      o <- lookup_obj a ;;
      match o with
      | ODict items => ret (List.length items)
      | OView _ _ => f_len rec v
      end
  | VScalar s => ret (String.length s)
  | VTuple _ _ => ret 2
  | _ => raise TypeError
  end.

(** [v.copy()] *)
Definition copy_value (v : value) : M heap value :=
  match v with
  | VRef a =>
      o <- lookup_obj a ;;
      match o with
      | ODict items => alloc (ODict items)
      | OView _ _ => f_copy rec v
      end
  | _ => raise AttributeError
  end.

(** [v.get(k)]: [dict.get], and [Mapping.get] for a [LocaleDataDict]
    ([try: return self[key] except KeyError: return None]). *)
Definition mapping_get (v : value) (k : key) : M heap value :=
  match v with
  | VRef a =>
      o <- lookup_obj a ;;
      match o with
      | ODict items => ret (default VNone (dict_get items k))
      | OView _ _ => catch (f_getitem rec v k) KeyError (ret VNone)
      end
  | _ => raise AttributeError
  end.

(** [v.items()], as the list Python 2 returns ([babel._compat] supports
    both interpreters; the two differ only when the mapping is mutated
    while it is iterated). *)
Definition mapping_items (v : value) : M heap (list (key * value)) :=
  match v with
  | VRef a =>
      o <- lookup_obj a ;;
      match o with
      | ODict items => ret items
      | OView _ _ =>
          ks <- f_iter rec v ;;
          map_each (fun k => x <- f_getitem rec v k ;; ret (k, x)) ks
      end
  | _ => raise AttributeError
  end.

(** The attributes [_data] and [base] of a [LocaleDataDict]. *)
Definition view_fields (self : value) : M heap (value * value) :=
  match self with
  | VRef a =>
      o <- lookup_obj a ;;
      match o with
      | OView data base => ret (data, base)
      | ODict _ => raise AttributeError
      end
  | _ => raise AttributeError
  end.

(** [LocaleDataDict(data, base)]; [base=None] means [base = data]. *)
Definition LocaleDataDict (data : value) (base : value) : M heap value :=
  alloc (OView data (match base with VNone => data | _ => base end)).

(** [Alias.resolve(self, data)], [self.keys = keys]:
<<
      base = data
      for key in self.keys:
          data = data[key]
      if isinstance(data, Alias):
          data = data.resolve(base)
      elif isinstance(data, tuple):
          alias, others = data
          data = alias.resolve(base)
      return data
>> *)
Definition resolve_body (keys : list key) (data : value) : M heap value :=
  let base := data in
  data <- fold_each subscript keys data ;;
  match data with
  | VAlias keys' => f_resolve rec keys' base
  | VTuple alias others => f_resolve rec alias base
  | _ => ret data
  end.

(** The body of the loop of [merge] for one item [(key, val2)] of
    [dict2]:
<<
      if val2 is not None:
          val1 = dict1.get(key)
          if isinstance(val2, dict):
              if val1 is None:
                  val1 = {}
              if isinstance(val1, Alias):
                  val1 = (val1, val2)
              elif isinstance(val1, tuple):
                  alias, others = val1
                  others = others.copy()
                  merge(others, val2)
                  val1 = (alias, others)
              else:
                  val1 = val1.copy()
                  merge(val1, val2)
          else:
              val1 = val2
          dict1[key] = val1
>> *)
Definition merge_item (dict1 : value) (item : key * value) : M heap unit :=
  let '(key, val2) := item in
  match val2 with
  | VNone => ret tt
  | _ =>
      val1 <- mapping_get dict1 key ;;
      d <- is_dict val2 ;;
      val1 <- (if d : bool then
                 val1 <- (match val1 with
                          | VNone => alloc (ODict [])
                          | _ => ret val1
                          end) ;;
                 match val1 with
                 | VAlias alias => ret (VTuple alias val2)
                 | VTuple alias others =>
                     others <- copy_value others ;;
                     f_merge rec others val2 ;;;
                     ret (VTuple alias others)
                 | _ =>
                     val1 <- copy_value val1 ;;
                     f_merge rec val1 val2 ;;;
                     ret val1
                 end
               else ret val2) ;;
      assign dict1 key val1
  end.

(** [merge(dict1, dict2)]: [for key, val2 in dict2.items(): ...] *)
Definition merge_body (dict1 dict2 : value) : M heap unit :=
  items <- mapping_items dict2 ;;
  for_each (merge_item dict1) items.

(** [LocaleDataDict.__getitem__(self, key)]:
<<
      orig = val = self._data[key]
      if isinstance(val, Alias):  # resolve an alias
          val = val.resolve(self.base)
      if isinstance(val, tuple):  # Merge a partial dict with an alias
          alias, others = val
          val = alias.resolve(self.base).copy()
          merge(val, others)
      if type(val) is dict:  # Return a nested alias-resolving dict
          val = LocaleDataDict(val, base=self.base)
      if val is not orig:
          self._data[key] = val
      return val
>> *)
Definition getitem_body (self : value) (key : key) : M heap value :=
  fields <- view_fields self ;;
  let '(data, base) := fields in
  orig <- subscript data key ;;
  val <- (match orig with
          | VAlias keys => f_resolve rec keys base
          | _ => ret orig
          end) ;;
  val <- (match val with
          | VTuple alias others =>
              target <- f_resolve rec alias base ;;
              val <- copy_value target ;;
              f_merge rec val others ;;;
              ret val
          | _ => ret val
          end) ;;
  d <- is_dict val ;;
  val <- (if d : bool then LocaleDataDict val base else ret val) ;;
  (if negb (py_is val orig) then assign data key val else ret tt) ;;;
  ret val.

(** [__setitem__]: [self._data[key] = value] *)
Definition setitem_body (self : value) (key : key) (x : value) : M heap unit :=
  fields <- view_fields self ;;
  let '(data, _) := fields in
  assign data key x.

(** [__iter__]: [iter(self._data)] *)
Definition iter_body (self : value) : M heap (list key) :=
  fields <- view_fields self ;;
  let '(data, _) := fields in
  iter_keys data.

(** [__len__]: [len(self._data)] *)
Definition len_body (self : value) : M heap nat :=
  fields <- view_fields self ;;
  let '(data, _) := fields in
  py_len data.

(** [copy]: [LocaleDataDict(self._data.copy(), base=self.base)] *)
Definition copy_body (self : value) : M heap value :=
  fields <- view_fields self ;;
  let '(data, base) := fields in
  data' <- copy_value data ;;
  LocaleDataDict data' base.

Definition step : funs :=
  {| f_getitem := getitem_body;
     f_setitem := setitem_body;
     f_iter := iter_body;
     f_len := len_body;
     f_copy := copy_body;
     f_resolve := resolve_body;
     f_merge := merge_body |}.
End Bodies.

(** No call is possible once the recursion budget is spent. *)
Definition no_funs : funs :=
  {| f_getitem := fun _ _ _ => Diverge;
     f_setitem := fun _ _ _ _ => Diverge;
     f_iter := fun _ _ => Diverge;
     f_len := fun _ _ => Diverge;
     f_copy := fun _ _ => Diverge;
     f_resolve := fun _ _ _ => Diverge;
     f_merge := fun _ _ _ => Diverge |}.

(** [interp n]: the functions of the module, good for calls nested at most
    [n] deep. *)
Fixpoint interp (n : nat) : funs :=
  match n with
  | 0 => no_funs
  | S n' => step (interp n')
  end.

Definition getitem (n : nat) := f_getitem (interp n).
Definition setitem (n : nat) := f_setitem (interp n).
Definition view_copy (n : nat) := f_copy (interp n).
Definition resolve (n : nat) := f_resolve (interp n).
Definition merge (n : nat) := f_merge (interp n).

(* ===================================================================== *)
(** ** Strings *)

(** [c.isspace()] for the code points below 128. *)
Definition is_space (c : ascii) : bool :=
  let n := nat_of_ascii c in
  (((9 <=? n) && (n <=? 13)) || ((28 <=? n) && (n <=? 32)))%nat.

Definition lower_char (c : ascii) : ascii :=
  let n := nat_of_ascii c in
  if ((65 <=? n) && (n <=? 90))%nat then ascii_of_nat (n + 32) else c.

(** [s.lower()] *)
Fixpoint lower (s : string) : string :=
  match s with
  | EmptyString => EmptyString
  | String c s' => String (lower_char c) (lower s')
  end.

(** [s.lstrip()] *)
Fixpoint lstrip (s : string) : string :=
  match s with
  | EmptyString => EmptyString
  | String c s' => if is_space c then lstrip s' else s
  end.

(** [s.rstrip()] *)
Fixpoint rstrip (s : string) : string :=
  match s with
  | EmptyString => EmptyString
  | String c s' =>
      match rstrip s' with
      | EmptyString => if is_space c then EmptyString else String c EmptyString
      | r => String c r
      end
  end.

(** [s.strip()] *)
Definition strip (s : string) : string := rstrip (lstrip s).

(** [s.split(sep)] for a one-character separator. *)
Fixpoint split (sep : ascii) (s : string) : list string :=
  match s with
  | EmptyString => [EmptyString]
  | String c s' =>
      if decide (c = sep) then EmptyString :: split sep s'
      else match split sep s' with
           | [] => [String c EmptyString]
           | p :: ps => String c p :: ps
           end
  end.

(** [sep.join(parts)] *)
Fixpoint join (sep : string) (parts : list string) : string :=
  match parts with
  | [] => EmptyString
  | [p] => p
  | p :: ps => p ++ sep ++ join sep ps
  end.

(** [p.rfind('.')], as the two slices [(p[:i], p[i:])]. *)
Fixpoint split_last_dot (p : string) : option (string * string) :=
  match p with
  | EmptyString => None
  | String c p' =>
      match split_last_dot p' with
      | Some (stem, ext) => Some (String c stem, ext)
      | None => if decide (c = "."%char) then Some (EmptyString, p) else None
      end
  end.

Fixpoint all_dots (s : string) : bool :=
  match s with
  | EmptyString => true
  | String c s' => bool_decide (c = "."%char) && all_dots s'
  end.

(** [os.path.splitext(p)] for a name without directory separators, as
    [os.listdir] returns them: the extension starts at the last dot, unless
    only dots precede it. *)
Definition splitext (p : string) : string * string :=
  match split_last_dot p with
  | Some (stem, ext) => if all_dots stem then (p, EmptyString) else (stem, ext)
  | None => (p, EmptyString)
  end.

(* ===================================================================== *)
(** ** Raw data *)

(** What [pickle.load] reads from a data file: a tree of dicts whose leaves
    are [None], scalars and [Alias] objects. *)
#[warnings="-register-all"]
Inductive raw : Type :=
  | RNone
  | RScalar (payload : string)
  | RAlias (keys : list key)
  | RDict (items : list (key * raw)).

(** The items of a pickled dict, unpickled one after the other into the
    dict under construction. *)
Definition load_items (load : raw -> M heap value)
  : list (key * raw) -> pydict key value -> M heap (pydict key value) :=
  fix go (l : list (key * raw)) (d : pydict key value) :=
    match l with
    | [] => ret d
    | (k, r) :: l' =>
        v <- load r ;;
        go l' (dict_set d k v)
    end.

(** [pickle.load(fileobj)] builds the objects on the heap, fresh at every
    call. *)
Fixpoint pickle_load (r : raw) : M heap value :=
  match r with
  | RNone => ret VNone
  | RScalar s => ret (VScalar s)
  | RAlias keys => ret (VAlias keys)
  | RDict items =>
      d <- load_items pickle_load items [] ;;
      alloc (ODict d)
  end.

(** The pickled dict as a dict: one entry per key. *)
Definition raw_dict (items : list (key * raw)) : pydict key raw :=
  fold_left (fun d kr => dict_set d (fst kr) (snd kr)) items [].

(** What a path leads to in the raw data. *)
Fixpoint raw_lookup (r : raw) (keys : list key) : option raw :=
  match keys with
  | [] => Some r
  | k :: keys' =>
      match r with
      | RDict items =>
          match dict_get (raw_dict items) k with
          | Some r' => raw_lookup r' keys'
          | None => None
          end
      | _ => None
      end
  end.

(** The raw data says nothing about a path: some key on the way is absent
    or holds [None]. *)
Fixpoint raw_untouched (r : raw) (keys : list key) : Prop :=
  match keys with
  | [] => False
  | k :: keys' =>
      match r with
      | RDict items =>
          match dict_get (raw_dict items) k with
          | None | Some RNone => True
          | Some (RDict items') => raw_untouched (RDict items') keys'
          | Some _ => False
          end
      | _ => False
      end
  end.

(** The value a raw datum is unpickled to, when it is no dict. *)
Definition raw_value (r : raw) : value :=
  match r with
  | RScalar s => VScalar s
  | RAlias keys => VAlias keys
  | _ => VNone
  end.

Definition raw_leaf (r : raw) : Prop :=
  match r with
  | RScalar _ | RAlias _ => True
  | _ => False
  end.

(* ===================================================================== *)
(** ** [_LocaleData] *)

(** The attributes of the [_LocaleData] instance, and the heap its data
    lives on.  [_cache] is keyed by what [load] computes as [name]: a string
    or [None]. *)
Record state : Type := {
  _cache : pydict (option string) value;
  _locale_identifiers : option (list string);
  _locale_identifiers_normalization_map : option (pydict string string);
  objs : heap
}.

(** [_LocaleData.__init__] *)
Definition init : state :=
  {| _cache := [];
     _locale_identifiers := None;
     _locale_identifiers_normalization_map := None;
     objs := [] |}.

Definition with_objs (st : state) (h : heap) : state :=
  {| _cache := _cache st;
     _locale_identifiers := _locale_identifiers st;
     _locale_identifiers_normalization_map := _locale_identifiers_normalization_map st;
     objs := h |}.

Definition with_cache (st : state) (c : pydict (option string) value) : state :=
  {| _cache := c;
     _locale_identifiers := _locale_identifiers st;
     _locale_identifiers_normalization_map := _locale_identifiers_normalization_map st;
     objs := objs st |}.

(** Code that only touches the heap, run inside the loader. *)
Definition on_heap {A} (m : M heap A) : M state A :=
  fun st => match m (objs st) with
            | Ret a h => Ret a (with_objs st h)
            | Raise e h => Raise e (with_objs st h)
            | Diverge => Diverge
            end.

(** An argument of [normalize_locale] and [load]: a string, or any other
    object. *)
Inductive name_arg : Type :=
  | NStr (s : string)
  | NOther.

#[global] Instance name_arg_eq_dec : EqDecision name_arg.
Proof. solve_decision. Defined.

(** [set.add] *)
Definition set_add (s : list string) (x : string) : list string :=
  if bool_decide (x ∈ s) then s else s ++ [x].

(** ['%s.dat' % name] *)
Definition dat_name (name : option string) : string :=
  match name with
  | Some s => s ++ ".dat"
  | None => "None.dat"
  end.

(** The loop of [locale_identifiers]:
<<
        for filename in os.listdir(_dirname):
            stem, ext = os.path.splitext(filename)
            if ext == '.dat' and stem != 'root':
                self._locale_identifiers.add(stem)
>> *)
Definition scan_identifiers (listdir : list string) : list string :=
  fold_left (fun ids filename =>
               let '(stem, ext) := splitext filename in
               if bool_decide (ext = ".dat") && negb (bool_decide (stem = "root"))
               then set_add ids stem else ids)
            listdir [].

(** [{s.lower(): s for s in ids}] *)
Definition normalization_map_of (ids : list string) : pydict string string :=
  fold_left (fun m s => dict_set m (lower s) s) ids [].

Section Loader.
(** The files of the [locale-data] directory: [os.listdir(_dirname)], and
    what unpickling [os.path.join(_dirname, f)] gives, if that file can be
    opened. *)
Variable listdir : list string.
Variable dat_file : string -> option raw.
(** [get_global('parent_exceptions')] *)
Variable parent_exceptions : pydict string string.

(** [locale_identifiers(self)].  The order in which Python lists a set is
    not specified; the model lists it in insertion order. *)
Definition locale_identifiers : M state (list string) :=
  st <- get_state ;;
  match _locale_identifiers st with
  | Some ids => ret ids
  | None =>
      let ids := scan_identifiers listdir in
      put_state {| _cache := _cache st;
                   _locale_identifiers := Some ids;
                   _locale_identifiers_normalization_map :=
                     _locale_identifiers_normalization_map st;
                   objs := objs st |} ;;;
      ret ids
  end.

(** [locale_identifiers_normalization_map(self)] *)
Definition locale_identifiers_normalization_map : M state (pydict string string) :=
  st <- get_state ;;
  match _locale_identifiers_normalization_map st with
  | Some m => ret m
  | None =>
      ids <- locale_identifiers ;;
      let m := normalization_map_of ids in
      st <- get_state ;;
      put_state {| _cache := _cache st;
                   _locale_identifiers := _locale_identifiers st;
                   _locale_identifiers_normalization_map := Some m;
                   objs := objs st |} ;;;
      ret m
  end.

(** [normalize_locale(self, name)] *)
Definition normalize_locale (name : name_arg) : M state (option string) :=
  match name with
  | NOther => ret None
  | NStr EmptyString => ret None
  | NStr name =>
      let name := lower (strip name) in
      m <- locale_identifiers_normalization_map ;;
      ret (dict_get m name)
  end.

(** [bool(v)], as [if not data] applies it. *)
Definition truthy (rec : funs) (v : value) : M heap bool :=
  match v with
  | VNone => ret false
  | VScalar s => ret (negb (bool_decide (s = EmptyString)))
  | VAlias _ => ret true
  | VTuple _ _ => ret true
  | VRef _ => n <- py_len rec v ;; ret (negb (n =? 0)%nat)
  end.

(** The parent of [name], inside [load]:
<<
              parent = get_global('parent_exceptions').get(name)
              if not parent:
                  parts = name.split('_')
                  if len(parts) == 1:
                      parent = 'root'
                  else:
                      parent = '_'.join(parts[:-1])
>>
    The table is keyed by identifiers, so [get(None)] finds nothing;
    [None] has no [split]. *)
Definition parent_of (name : option string) : M state string :=
  let parent :=
    match name with
    | Some s => dict_get parent_exceptions s
    | None => None
    end in
  match parent with
  | Some (String c p) => ret (String c p)
  | _ =>
      match name with
      | None => raise AttributeError
      | Some s =>
          let parts := split "_" s in
          if (List.length parts =? 1)%nat then ret "root"
          else ret (join "_" (removelast parts))
      end
  end.

(** [load(self, name, merge_inherited=True)]; the lock is re-entrant and
    held by the one thread of the model.
<<
      name = 'root' if name == 'root' else self.normalize_locale(name)
      data = self._cache.get(name)
      if not data:
          # Load inherited data
          if name == 'root' or not merge_inherited:
              data = {}
          else:
              parent = get_global('parent_exceptions').get(name)
              if not parent:
                  parts = name.split('_')
                  if len(parts) == 1:
                      parent = 'root'
                  else:
                      parent = '_'.join(parts[:-1])
              data = self.load(parent).copy()
          filename = os.path.join(_dirname, '%s.dat' % name)
          with open(filename, 'rb') as fileobj:
              if name != 'root' and merge_inherited:
                  merge(data, pickle.load(fileobj))
              else:
                  data = pickle.load(fileobj)
          self._cache[name] = data
      return data
>> *)
Fixpoint load (n : nat) (name : name_arg) (merge_inherited : bool)
  : M state value :=
  match n with
  | 0 => fun _ => Diverge
  | S n' =>
      name <- (if bool_decide (name = NStr "root") then ret (Some "root")
               else normalize_locale name) ;;
      st <- get_state ;;
      let data := default VNone (dict_get (_cache st) name) in
      t <- on_heap (truthy (interp n') data) ;;
      if negb t then
        data <- (if bool_decide (name = Some "root") || negb merge_inherited then
                   on_heap (alloc (ODict []))
                 else
                   parent <- parent_of name ;;
                   p <- load n' (NStr parent) true ;;
                   on_heap (copy_value (interp n') p)) ;;
        match dat_file (dat_name name) with
        | None => raise IOError
        | Some r =>
            data <- (if negb (bool_decide (name = Some "root")) && merge_inherited then
                       r' <- on_heap (pickle_load r) ;;
                       on_heap (merge n' data r') ;;;
                       ret data
                     else on_heap (pickle_load r)) ;;
            st <- get_state ;;
            put_state (with_cache st (dict_set (_cache st) name data)) ;;;
            ret data
        end
      else ret data
  end.
End Loader.

(* ===================================================================== *)
(** ** Predicates used in the statements *)

(** A string of whitespace only: the padding that [strip] removes. *)
Fixpoint all_space (s : string) : bool :=
  match s with
  | EmptyString => true
  | String c s' => is_space c && all_space s'
  end.

(** The lazily built tables of a [_LocaleData] are either not built yet or
    hold what the directory listing gives. *)
Definition memo_ok (listdir : list string) (st : state) : Prop :=
  (forall ids, _locale_identifiers st = Some ids -> ids = scan_identifiers listdir) /\
  (forall m, _locale_identifiers_normalization_map st = Some m ->
             m = normalization_map_of (scan_identifiers listdir)).

(** What [normalize_locale] returns, as a function of the listing. *)
Definition normalized (listdir : list string) (name : name_arg) : option string :=
  match name with
  | NStr (String c s) =>
      dict_get (normalization_map_of (scan_identifiers listdir))
               (lower (strip (String c s)))
  | _ => None
  end.

(** The second half of the normalizer property as the specification words
    it: every available identifier is recovered from any of its case
    variants, padded with whitespace. *)
Definition normalize_recovers_all (listdir : list string) : Prop :=
  forall s l t r : string,
    s ∈ scan_identifiers listdir ->
    all_space l = true -> all_space r = true -> lower t = lower s ->
    exists st', normalize_locale listdir (NStr (l ++ t ++ r)) init = Ret (Some s) st'.

(** The key under which [load] looks [name] up in the cache:
    [name = 'root' if name == 'root' else self.normalize_locale(name)]. *)
Definition canonical (listdir : list string) (name : name_arg) : option string :=
  if bool_decide (name = NStr "root") then Some "root"
  else normalized listdir name.

(** The first statement of [load], [name = 'root' if name == 'root' else
    self.normalize_locale(name)], leaves [None] in [name]. *)
Definition unknown_name (listdir : list string) (name : name_arg) : Prop :=
  name <> NStr "root" /\ normalized listdir name = None.

(** How a heap can evolve: objects are never freed, a [LocaleDataDict]
    never changes ([_data] and [base] are assigned once, in [__init__]),
    and a dict stays a dict. *)
Definition ext (h h' : heap) : Prop :=
  List.length h <= List.length h' /\
  forall a, match h !! a with
            | Some (OView d b) => h' !! a = Some (OView d b)
            | Some (ODict _) => exists items', h' !! a = Some (ODict items')
            | None => True
            end.

(** Code that evolves the heap in that way only, however it ends. *)
Definition preserves {A} (m : M heap A) : Prop :=
  forall h, match m h with
            | Ret _ h' => ext h h'
            | Raise _ h' => ext h h'
            | Diverge => True
            end.

Definition funs_preserve (rec : funs) : Prop :=
  (forall v k, preserves (f_getitem rec v k)) /\
  (forall v k x, preserves (f_setitem rec v k x)) /\
  (forall v, preserves (f_iter rec v)) /\
  (forall v, preserves (f_len rec v)) /\
  (forall v, preserves (f_copy rec v)) /\
  (forall keys v, preserves (f_resolve rec keys v)) /\
  (forall v w, preserves (f_merge rec v w)).

(** A value that is neither an [Alias] nor an [(alias, others)] pair. *)
Definition resolved (v : value) : bool :=
  match v with
  | VAlias _ | VTuple _ _ => false
  | _ => true
  end.

(** The value found by following [keys] from [v] through plain dicts, read
    off the heap without running any code. *)
Fixpoint lookup_path (h : heap) (v : value) (keys : list key) : option value :=
  match keys with
  | [] => Some v
  | k :: keys' =>
      match v with
      | VRef a =>
          match h !! a with
          | Some (ODict items) =>
              match dict_get items k with
              | Some x => lookup_path h x keys'
              | None => None
              end
          | _ => None
          end
      | _ => None
      end
  end.

(** Alias resolution as the specification words it: walk the keys through
    [base]; a value that is itself an alias is resolved against the same
    [base]; of a partial-alias pair only the alias is resolved, the overlay
    plays no part.  The index counts the aliases followed. *)
Inductive resolves_to (h : heap) (base : value) : nat -> list key -> value -> Prop :=
  | resolves_value keys v :
      lookup_path h base keys = Some v ->
      resolved v = true ->
      resolves_to h base 0 keys v
  | resolves_alias keys keys' d v :
      lookup_path h base keys = Some (VAlias keys') ->
      resolves_to h base d keys' v ->
      resolves_to h base (S d) keys v
  | resolves_pair keys alias overlay d v :
      lookup_path h base keys = Some (VTuple alias overlay) ->
      resolves_to h base d alias v ->
      resolves_to h base (S d) keys v.

(** The dict at [d] stores under [k] a reference to a [LocaleDataDict]
    object, the one at [v], whose [_data] is [target]. *)
Definition stores_view (h : heap) (d : addr) (k : key) (v : addr)
    (target base : value) : Prop :=
  exists items,
    h !! d = Some (ODict items) /\
    dict_get items k = Some (VRef v) /\
    h !! v = Some (OView target (match base with VNone => target | _ => base end)).

(** *** Regions of plain data

    The statements about [merge] speak of sets of addresses that hold
    dicts only and are closed under the references their dicts store. *)

(** The references of a value: a dict value must lie in [D], the overlay
    of a pair in [O]. *)
Definition val_ok (D O : addr -> Prop) (v : value) : Prop :=
  match v with
  | VRef b => D b
  | VTuple _ (VRef b) => O b
  | VTuple _ _ => False
  | _ => True
  end.

(** The object at [a] is a dict with one entry per key whose values keep
    to [D] and [O]. *)
Definition dict_ok (h : heap) (D O : addr -> Prop) (a : addr) : Prop :=
  exists items,
    h !! a = Some (ODict items) /\
    NoDup (map fst items) /\
    forall k v, (k, v) ∈ items -> val_ok D O v.

(** A set of dicts that refer to each other only. *)
Definition closed (h : heap) (U : addr -> Prop) : Prop :=
  forall a, U a -> dict_ok h U U a.

(** The value found by following [keys] from [v] the way a reader of the
    merged data does: into a dict, and into the overlay of a pair. *)
Fixpoint deep_get (h : heap) (v : value) (keys : list key) : option value :=
  match keys with
  | [] => Some v
  | k :: keys' =>
      match v with
      | VRef a | VTuple _ (VRef a) =>
          match h !! a with
          | Some (ODict items) =>
              match dict_get items k with
              | Some x => deep_get h x keys'
              | None => None
              end
          | _ => None
          end
      | _ => None
      end
  end.

(** A value that [merge] copies as it is: not [None], not a dict. *)
Definition leaf (v : value) : Prop :=
  match v with
  | VNone | VRef _ => False
  | _ => True
  end.

(** The source of a merge says nothing about the path [keys]: following
    it through the dicts of the source, some key on the way is absent or
    holds [None]. *)
Fixpoint untouched (h : heap) (v : value) (keys : list key) : Prop :=
  match keys with
  | [] => False
  | k :: keys' =>
      match v with
      | VRef a =>
          match h !! a with
          | Some (ODict items) =>
              match dict_get items k with
              | None | Some VNone => True
              | Some (VRef b) => untouched h (VRef b) keys'
              | Some _ => False
              end
          | _ => False
          end
      | _ => False
      end
  end.

(** What [merge(c, s)] assumes here: the values of the target [c] lie in a
    closed set [T] of dicts, the source [s] in a closed set [S], and [c]
    itself in neither (nothing stored in the data refers to the target, and
    it is no part of the source). *)
Record merge_pre (h : heap) (T S : addr -> Prop) (c s : addr) : Prop := {
  pre_T : closed h T;
  pre_S : closed h S;
  pre_c : dict_ok h T T c;
  pre_cT : ~ T c;
  pre_cS : ~ S c;
  pre_s : S s
}.

(** The addresses allocated between two heaps. *)
Definition fresh (h h' : heap) (a : addr) : Prop :=
  List.length h <= a < List.length h'.

(** The shape of the heap while and after [merge] works on the target [c],
    started in [h]: no object but the target has been written; the dicts
    that the target and the new objects refer to are dicts of [T] or new
    ones, never dicts of the source; only the overlay of a pair may be a
    dict of the source. *)
Record merge_frame (h : heap) (T S : addr -> Prop) (c : addr) (h' : heap)
  : Prop := {
  frame_len : List.length h <= List.length h';
  frame_same : forall a, a < List.length h -> a <> c -> h' !! a = h !! a;
  frame_c : dict_ok h' (fun a => T a \/ fresh h h' a)
                       (fun a => T a \/ fresh h h' a \/ S a) c;
  frame_fresh : forall a, fresh h h' a ->
                dict_ok h' (fun a => T a \/ fresh h h' a)
                           (fun a => T a \/ fresh h h' a \/ S a) a
}.

(** What [merge(c, s)] guarantees when it returns. *)
Record merge_post (h : heap) (T S : addr -> Prop) (c s : addr) (h' : heap)
  : Prop := {
  post_frame : merge_frame h T S c h';
  (* a value of the source wins at every level *)
  post_win : forall p x,
      lookup_path h (VRef s) p = Some x -> leaf x ->
      deep_get h' (VRef c) p = Some x;
  (* what the source does not define is kept *)
  post_keep : forall p x,
      deep_get h (VRef c) p = Some x -> untouched h (VRef s) p ->
      deep_get h' (VRef c) p = Some x
}.

(** The value of the dict at [c] under [k]. *)
Definition entry (h : heap) (c : addr) (k : key) : option value :=
  match h !! c with
  | Some (ODict items) => dict_get items k
  | _ => None
  end.

(** What one round of the loop of [merge], for the item [(k, v2)] of the
    source, has made of the entry of the target [c] under [k]. *)
Definition item_post (h : heap) (c : addr) (k : key) (v2 : value) (h' : heap)
  : Prop :=
  match v2 with
  | VNone => entry h' c k = entry h c k
  | VRef s2 =>
      exists w,
        entry h' c k = Some w /\
        (forall p x, lookup_path h (VRef s2) p = Some x -> leaf x ->
                     deep_get h' w p = Some x) /\
        (forall old p x, entry h c k = Some old ->
                         deep_get h old p = Some x -> untouched h (VRef s2) p ->
                         deep_get h' w p = Some x)
  | _ => entry h' c k = Some v2
  end.

Definition merge_ok (rec : funs) : Prop :=
  forall h T S c s h',
    merge_pre h T S c s ->
    f_merge rec (VRef c) (VRef s) h = Ret tt h' ->
    merge_post h T S c s h'.

(** The dict a value refers to: itself, or, for a pair, its overlay. *)
Definition target_of (v : value) : option addr :=
  match v with
  | VRef a => Some a
  | VTuple _ (VRef a) => Some a
  | _ => None
  end.

(** [nested h a b]: the object at [b] is a nested structure reachable from
    the dict at [a], through the values of dicts and the overlays of
    pairs. *)
Inductive nested (h : heap) : addr -> addr -> Prop :=
  | nested_child a items k v b :
      h !! a = Some (ODict items) -> (k, v) ∈ items -> target_of v = Some b ->
      nested h a b
  | nested_trans a b c :
      nested h a b -> nested h b c -> nested h a c.

(** The same, through the values of dicts only. *)
Inductive nested_plain (h : heap) : addr -> addr -> Prop :=
  | nested_plain_child a items k b :
      h !! a = Some (ODict items) -> (k, VRef b) ∈ items ->
      nested_plain h a b
  | nested_plain_trans a b c :
      nested_plain h a b -> nested_plain h b c -> nested_plain h a c.

(** Two dicts share no nested structure. *)
Definition shares_nothing (h : heap) (c s : addr) : Prop :=
  forall a, nested h c a -> nested h s a -> False.

(** The second half of the property of [merge] as the specification words
    it: after the merge, no nested Dataset reachable from the target is the
    same object as one reachable from the source. *)
Definition merge_never_shares : Prop :=
  forall n h c s h',
    shares_nothing h c s ->
    merge n (VRef c) (VRef s) h = Ret tt h' ->
    shares_nothing h' c s.

(** *** Unpickled data *)

(** The kind of value a raw datum is unpickled to. *)
Definition shallow (v : value) (r : raw) : Prop :=
  match r with
  | RNone => v = VNone
  | RScalar s => v = VScalar s
  | RAlias keys => v = VAlias keys
  | RDict _ => exists a, v = VRef a
  end.

(** The value [v], in the heap [h], holds the raw datum [r]: it lies in the
    set [R] of dicts, and paths lead in it where they lead in [r]. *)
Definition good (h : heap) (R : addr -> Prop) (v : value) (r : raw) : Prop :=
  val_ok R R v /\
  shallow v r /\
  (forall p x, raw_lookup r p = Some x -> raw_leaf x ->
               lookup_path h v p = Some (raw_value x)) /\
  (forall p, raw_untouched r p -> untouched h v p).

(** Unpickling [r] in [h] gave [v] and [h']: the old objects are as they
    were, and the new ones are plain dicts that hold [r]. *)
Definition pickled (h : heap) (r : raw) (v : value) (h' : heap) : Prop :=
  (exists new, h' = h ++ new) /\
  closed h' (fresh h h') /\
  good h' (fresh h h') v r.

(** The dict under construction [d] holds the raw items [rd]. *)
Definition holds_items (h0 h : heap) (d : pydict key value)
    (rd : pydict key raw) : Prop :=
  NoDup (map fst d) /\
  forall k, match dict_get rd k with
            | Some r => exists x, dict_get d k = Some x /\ good h (fresh h0 h) x r
            | None => dict_get d k = None
            end.

(** A heap of plain dicts only, as the loader builds it. *)
Definition plain (h : heap) : Prop := closed h (fun a => a < List.length h).

(** The parent that [load] derives for a canonical name: the entry of the
    table of exceptions when it has a non-empty one, else the name without
    its last [_] segment, or ['root']. *)
Definition parent_name (parent_exceptions : pydict string string) (c : string)
  : string :=
  match dict_get parent_exceptions c with
  | Some (String a p) => String a p
  | _ =>
      let parts := split "_" c in
      if (List.length parts =? 1)%nat then "root"
      else join "_" (removelast parts)
  end.

(** The inheritance property of a loaded dataset [v] (in the heap [h']),
    for the identifier [c] whose parent's dataset is [pv] (in the heap
    [h3]): every value of the data file of [c] that is neither [None] nor a
    dict is what its path leads to in [v], and every path that the data
    file says nothing about leads in [v] where it led in [pv]. *)
Definition inherits (dat_file : string -> option raw) (c : string)
    (h3 : heap) (pv : value) (h' : heap) (v : value) : Prop :=
  exists ritems,
    dat_file (c +:+ ".dat") = Some (RDict ritems) /\
    (forall p x, raw_lookup (RDict ritems) p = Some x -> raw_leaf x ->
                 deep_get h' v p = Some (raw_value x)) /\
    (forall p x, deep_get h3 pv p = Some x -> raw_untouched (RDict ritems) p ->
                 deep_get h' v p = Some x).

(** The state in which a run ends, by return or by exception. *)
Definition final_state {S A} (o : outcome S A) : option S :=
  match o with
  | Ret _ s => Some s
  | Raise _ s => Some s
  | Diverge => None
  end.

(** The states a process can be in when [load] is only ever called with
    [merge_inherited] left at its default: the fresh [_LocaleData], then any
    number of such calls, returning or raising, and of code that works on
    the loaded data (views, merges) and so on the heap only. *)
Inductive reachable (listdir : list string) (dat_file : string -> option raw)
    (parent_exceptions : pydict string string) : state -> Prop :=
  | reach_init : reachable listdir dat_file parent_exceptions init
  | reach_load st n name st' :
      reachable listdir dat_file parent_exceptions st ->
      final_state (load listdir dat_file parent_exceptions n name true st) = Some st' ->
      reachable listdir dat_file parent_exceptions st'
  | reach_heap st h :
      reachable listdir dat_file parent_exceptions st ->
      reachable listdir dat_file parent_exceptions (with_objs st h).

(** A dict with at least one key: what [if not data] takes for loaded. *)
Definition nonempty_dict (h : heap) (v : value) : Prop :=
  exists a items, v = VRef a /\ h !! a = Some (ODict items) /\ items <> [].

(* ===================================================================== *)
(** ** Sample data *)

(** A directory listing for the examples. *)
Definition sample_listdir : list string :=
  ["en.dat"; "en_US.dat"; "root.dat"; "README"; "sv.dat"].


(** Data files for the examples: [root], [en] and [en_US] form an
    inheritance chain; [sv] has a file but its parent [root] is shared. *)
Definition sample_files (f : string) : option raw :=
  if decide (f = "root.dat") then
    Some (RDict [("a", RScalar "A");
                 ("n", RDict [("x", RScalar "X"); ("y", RScalar "Y")]);
                 ("m", RAlias ["n"])])
  else if decide (f = "en.dat") then
    Some (RDict [("b", RScalar "B"); ("n", RDict [("x", RScalar "X2")])])
  else if decide (f = "en_US.dat") then
    Some (RDict [("a", RScalar "A3"); ("n", RDict [("z", RNone)]);
                 ("m", RDict [("y", RScalar "Y3")])])
  else if decide (f = "sv.dat") then
    Some (RDict [("a", RNone)])
  else None.

(** A directory in which the data file of [en] is missing, and one whose
    root data file holds an empty dict. *)
Definition listdir_no_en : list string := ["en_US.dat"; "root.dat"].

Definition files_no_en (f : string) : option raw :=
  if decide (f = "en.dat") then None else sample_files f.

Definition files_empty_root (f : string) : option raw :=
  if decide (f = "root.dat") then Some (RDict []) else None.

(** A loaded dataset with an alias, an alias to an alias, and a
    partial-alias pair, under a [LocaleDataDict] at address 4. *)
Definition sample_heap : heap :=
  [ ODict [("languages", VRef 1);
           ("x", VAlias ["languages"; "sv"]);
           ("y", VAlias ["x"]);
           ("z", VAlias ["languages"]);
           ("p", VTuple ["languages"] (VRef 2));
           ("q", VAlias ["p"])];
    ODict [("sv", VScalar "Swedish"); ("de", VScalar "German"); ("t", VRef 3)];
    ODict [("sv", VScalar "svenska"); ("fi", VScalar "suomi");
           ("t", VRef 3); ("u", VNone)];
    ODict [("n", VScalar "N")];
    OView (VRef 0) (VRef 0) ].

(** A target that holds an alias where the source holds a nested dict. *)
Definition alias_meets_dict : heap :=
  [ ODict [("k", VAlias ["x"])];
    ODict [("k", VRef 2)];
    ODict [("a", VScalar "1")] ].

(** A target (at 3) that is a copy of an ancestor's data, and a source
    (at 4) read from a data file. *)
Definition merge_heap : heap :=
  [ ODict [("x", VScalar "X"); ("y", VScalar "Y")];
    ODict [("x", VScalar "X2"); ("z", VNone)];
    ODict [("u", VScalar "U")];
    ODict [("a", VScalar "A"); ("n", VRef 0); ("m", VAlias ["n"]); ("b", VScalar "B")];
    ODict [("a", VScalar "A3"); ("n", VRef 1); ("m", VRef 2); ("b", VNone)] ].
(* ===================================================================== *)
(** * Proofs *)

(** ** Dictionaries *)

Section PyDictFacts.
Context {K V : Type} `{EqDecision K}.

Lemma dict_get_set_eq (d : pydict K V) k v : dict_get (dict_set d k v) k = Some v.
Proof.
  induction d as [|[k' v'] d IH]; simpl.
  - by rewrite decide_True.
  - destruct (decide (k' = k)) as [->|Hne]; simpl.
    + by rewrite decide_True.
    + by rewrite decide_False.
Qed.

Lemma dict_get_set_ne (d : pydict K V) k k' v :
  k ≠ k' -> dict_get (dict_set d k v) k' = dict_get d k'.
Proof.
  intros Hne. induction d as [|[k0 v0] d IH]; simpl.
  - by rewrite decide_False.
  - destruct (decide (k0 = k)) as [->|Hne0]; simpl.
    + by rewrite !decide_False.
    + destruct (decide (k0 = k')); done.
Qed.

Lemma dict_get_set (d : pydict K V) k k' v :
  dict_get (dict_set d k v) k' = if decide (k = k') then Some v else dict_get d k'.
Proof.
  destruct (decide (k = k')) as [->|Hne].
  - apply dict_get_set_eq.
  - by apply dict_get_set_ne.
Qed.
End PyDictFacts.

(** ** Strings *)

Lemma is_space_lower_char c : is_space (lower_char c) = is_space c.
Proof. destruct c as [[] [] [] [] [] [] [] []]; reflexivity. Qed.

Lemma lower_empty s : lower s = EmptyString -> s = EmptyString.
Proof. destruct s; [done | discriminate]. Qed.

Lemma lower_lstrip s : lower (lstrip s) = lstrip (lower s).
Proof.
  induction s as [|c s IH]; simpl; [done|].
  rewrite is_space_lower_char. destruct (is_space c); [exact IH | done].
Qed.

Lemma lower_rstrip s : lower (rstrip s) = rstrip (lower s).
Proof.
  induction s as [|c s IH]; simpl; [done|].
  rewrite <- IH. destruct (rstrip s) as [|c' r'] eqn:E; simpl.
  - rewrite is_space_lower_char. by destruct (is_space c).
  - done.
Qed.

Lemma lower_strip s : lower (strip s) = strip (lower s).
Proof. unfold strip. by rewrite lower_rstrip, lower_lstrip. Qed.

Lemma lstrip_pad l s : all_space l = true -> lstrip (l ++ s) = lstrip s.
Proof.
  induction l as [|c l IH]; simpl; [done|].
  intros [Hc Hl]%andb_true_iff. rewrite Hc. by apply IH.
Qed.

Lemma lstrip_all_space l : all_space l = true -> lstrip l = EmptyString.
Proof.
  induction l as [|c l IH]; simpl; [done|].
  intros [Hc Hl]%andb_true_iff. rewrite Hc. by apply IH.
Qed.

Lemma rstrip_all_space r : all_space r = true -> rstrip r = EmptyString.
Proof.
  induction r as [|c r IH]; simpl; [done|].
  intros [Hc Hr]%andb_true_iff. by rewrite (IH Hr), Hc.
Qed.

Lemma rstrip_pad s r : all_space r = true -> rstrip (s ++ r) = rstrip s.
Proof.
  intros Hr. induction s as [|c s IH]; simpl.
  - by apply rstrip_all_space.
  - by rewrite IH.
Qed.

Lemma strip_pad_right s r : all_space r = true -> strip (s ++ r) = strip s.
Proof.
  intros Hr. unfold strip. induction s as [|c s IH]; simpl.
  - by rewrite lstrip_all_space.
  - destruct (is_space c); [exact IH|].
    by apply (rstrip_pad (String c s)).
Qed.

Lemma strip_pad l s r :
  all_space l = true -> all_space r = true -> strip (l ++ s ++ r) = strip s.
Proof.
  intros Hl Hr. unfold strip at 1. rewrite lstrip_pad by done.
  by apply strip_pad_right.
Qed.

(* ===================================================================== *)
(** ** The identifier normalizer *)

Section NormalizationMap.
Implicit Types (ids : list string) (m : pydict string string).

Let add_id := fun m (s : string) => dict_set m (lower s) s.

(** A key that is the lower-cased form of no identifier keeps whatever
    the table held before the comprehension ran. *)
Lemma map_fold_miss ids m k :
  (forall s, s ∈ ids -> lower s <> k) ->
  dict_get (fold_left add_id ids m) k = dict_get m k.
Proof.
  revert m. induction ids as [|x ids IH]; intros m Hk; simpl; [done|].
  rewrite IH.
  - unfold add_id. rewrite dict_get_set_ne; [done|]. apply Hk. left.
  - intros s Hs. apply Hk. by right.
Qed.

(** An identifier that is alone with its lower-cased form is what the
    table holds under that form. *)
Lemma map_fold_hit ids m s :
  (forall s', s' ∈ ids -> lower s' = lower s -> s' = s) ->
  s ∈ ids \/ dict_get m (lower s) = Some s ->
  dict_get (fold_left add_id ids m) (lower s) = Some s.
Proof.
  revert m. induction ids as [|x ids IH]; intros m Huniq Hin; simpl.
  - destruct Hin as [Hin|Hin]; [by apply elem_of_nil in Hin | done].
  - apply IH.
    + intros s' Hs'. apply Huniq. by right.
    + unfold add_id. rewrite dict_get_set.
      destruct Hin as [[->|Hin]%elem_of_cons|Hm].
      * right. by rewrite decide_True.
      * by left.
      * right. destruct (decide (lower x = lower s)) as [E|]; [|done].
        f_equal. apply Huniq; [left | done].
Qed.
End NormalizationMap.

Lemma normalization_map_miss ids k :
  (forall s, s ∈ ids -> lower s <> k) ->
  dict_get (normalization_map_of ids) k = None.
Proof. intros H. unfold normalization_map_of. by rewrite map_fold_miss. Qed.

Lemma normalization_map_hit ids s :
  s ∈ ids ->
  (forall s', s' ∈ ids -> lower s' = lower s -> s' = s) ->
  dict_get (normalization_map_of ids) (lower s) = Some s.
Proof. intros Hin Hu. unfold normalization_map_of. apply map_fold_hit; auto. Qed.

(** [splitext] never returns an extension with an empty stem. *)
Lemma splitext_stem_nonempty p stem ext :
  splitext p = (stem, ext) -> ext <> EmptyString -> stem <> EmptyString.
Proof.
  unfold splitext. destruct (split_last_dot p) as [[st e]|].
  - destruct (all_dots st) eqn:E; intros [= <- <-] Hext; [done|].
    intros ->. discriminate.
  - intros [= <- <-] Hext. done.
Qed.

Lemma scan_identifiers_nonempty listdir s :
  s ∈ scan_identifiers listdir -> s <> EmptyString.
Proof.
  unfold scan_identifiers.
  assert (Hgen : forall acc : list string,
             (forall x, x ∈ acc -> x <> EmptyString) ->
             s ∈ fold_left (fun ids filename =>
                 let '(stem, ext) := splitext filename in
                 if bool_decide (ext = ".dat") && negb (bool_decide (stem = "root"))
                 then set_add ids stem else ids) listdir acc ->
             s <> EmptyString).
  { induction listdir as [|f fs IH]; intros acc Hacc; simpl.
    - apply Hacc.
    - apply IH. destruct (splitext f) as [stem ext] eqn:E.
      destruct (bool_decide (ext = ".dat")) eqn:Hext; simpl; [|done].
      destruct (negb (bool_decide (stem = "root"))); [|done].
      apply bool_decide_eq_true in Hext. subst ext.
      unfold set_add. destruct (bool_decide (stem ∈ acc)); [exact Hacc|].
      intros x Hx. apply elem_of_app in Hx as [Hx|Hx]; [by apply Hacc|].
      apply list_elem_of_singleton in Hx. subst x.
      by apply (splitext_stem_nonempty f _ ".dat"). }
  apply Hgen. intros x Hx. by apply elem_of_nil in Hx.
Qed.

(** [normalize_locale] returns [normalized], touching nothing but the two
    lazily built tables. *)
Lemma normalize_locale_spec listdir name st :
  memo_ok listdir st ->
  exists st',
    normalize_locale listdir name st = Ret (normalized listdir name) st' /\
    memo_ok listdir st' /\ _cache st' = _cache st /\ objs st' = objs st.
Proof.
  intros Hok. pose proof Hok as [Hids Hmap].
  destruct name as [[|c s]|]; simpl.
  1, 3: by (eexists; split; [reflexivity | repeat split]).
  unfold bind, locale_identifiers_normalization_map, bind, get_state.
  destruct (_locale_identifiers_normalization_map st) as [m|] eqn:Em.
  - unfold ret. exists st. split; [|done].
    by rewrite (Hmap m eq_refl).
  - unfold locale_identifiers, bind, get_state.
    destruct (_locale_identifiers st) as [ids|] eqn:Ei; unfold ret, put_state; simpl.
    + rewrite (Hids ids eq_refl). eexists. split; [reflexivity|].
      split; [|done]. split; simpl; [by rewrite Ei | by intros ? [= <-]].
    + eexists. split; [reflexivity|].
      split; [|done]. split; simpl; [by intros ? [= <-] | by intros ? [= <-]].
Qed.

Lemma normalize_none_cases listdir st name :
  memo_ok listdir st ->
  (forall s, s ∈ scan_identifiers listdir -> lower s <> lower (strip name)) ->
  exists st', normalize_locale listdir (NStr name) st = Ret None st'.
Proof.
  intros Hok Hmiss.
  destruct (normalize_locale_spec listdir (NStr name) st Hok) as (st' & E & _).
  exists st'. rewrite E. f_equal.
  destruct name as [|c s]; [done|]. simpl.
  by apply normalization_map_miss.
Qed.

Lemma normalize_padded_variant listdir st (s l t r : string) :
  memo_ok listdir st ->
  s ∈ scan_identifiers listdir ->
  strip s = s ->
  (forall s', s' ∈ scan_identifiers listdir -> lower s' = lower s -> s' = s) ->
  all_space l = true -> all_space r = true -> lower t = lower s ->
  exists st', normalize_locale listdir (NStr (l +:+ t +:+ r)) st = Ret (Some s) st'.
Proof.
  intros Hok Hin Hstrip Huniq Hl Hr Ht.
  destruct (normalize_locale_spec listdir (NStr (l +:+ t +:+ r)) st Hok)
    as (st' & E & _).
  exists st'. rewrite E. f_equal.
  assert (Hkey : lower (strip (l +:+ t +:+ r)) = lower s).
  { rewrite strip_pad by done.
    by rewrite lower_strip, Ht, <- lower_strip, Hstrip. }
  destruct (l +:+ t +:+ r) as [|c u] eqn:Eu.
  - exfalso. apply (scan_identifiers_nonempty listdir s Hin).
    apply lower_empty. by rewrite <- Hkey.
  - simpl. rewrite Hkey. by apply normalization_map_hit.
Qed.


Lemma init_memo_ok listdir : memo_ok listdir init.
Proof. split; intros ? [=]. Qed.



(* ===================================================================== *)
(** ** The monad *)

Lemma bind_Ret {S A B} (m : M S A) (f : A -> M S B) s b s2 :
  bind m f s = Ret b s2 ->
  exists a s1, m s = Ret a s1 /\ f a s1 = Ret b s2.
Proof.
  unfold bind. destruct (m s) as [a s1| |]; intros H; [|done|done].
  by exists a, s1.
Qed.

Lemma bind_Raise {S A B} (m : M S A) (f : A -> M S B) s e s2 :
  bind m f s = Raise e s2 ->
  m s = Raise e s2 \/ exists a s1, m s = Ret a s1 /\ f a s1 = Raise e s2.
Proof.
  unfold bind. destruct (m s) as [a s1|e' s1|]; intros H.
  - right. by exists a, s1.
  - injection H as -> ->. by left.
  - done.
Qed.

Lemma bind_eq_Ret {S A B} (m : M S A) (f : A -> M S B) s a s1 :
  m s = Ret a s1 -> bind m f s = f a s1.
Proof. unfold bind. by intros ->. Qed.

Lemma bind_eq_Raise {S A B} (m : M S A) (f : A -> M S B) s e s1 :
  m s = Raise e s1 -> bind m f s = Raise e s1.
Proof. unfold bind. by intros ->. Qed.

Lemma with_objs_id st : with_objs st (objs st) = st.
Proof. by destruct st. Qed.

Lemma on_heap_Ret {A} (m : M heap A) st a st' :
  on_heap m st = Ret a st' ->
  exists h, m (objs st) = Ret a h /\ st' = with_objs st h.
Proof.
  unfold on_heap. destruct (m (objs st)) as [a' h|e h|]; [|done|done].
  intros [= <- <-]. eauto.
Qed.

Lemma on_heap_Raise {A} (m : M heap A) st e st' :
  on_heap m st = Raise e st' ->
  exists h, m (objs st) = Raise e h /\ st' = with_objs st h.
Proof.
  unfold on_heap. destruct (m (objs st)) as [a' h|e' h|]; [done| |done].
  intros [= <- <-]. eauto.
Qed.

(* ===================================================================== *)
(** ** The loader: names that the normalizer does not know *)

Section UnknownName.
Variable listdir : list string.
Variable dat_file : string -> option raw.
Variable parent_exceptions : pydict string string.

Let load := load listdir dat_file parent_exceptions.

Lemma load_unknown_default n name st st' :
  unknown_name listdir name ->
  dict_get (_cache st) None = None ->
  normalize_locale listdir name st = Ret None st' ->
  _cache st' = _cache st ->
  load (S n) name true st = Raise AttributeError st'.
Proof.
  intros [Hroot Hnorm] Hcache E Hc.
  unfold load. simpl.
  rewrite bool_decide_eq_false_2 by done.
  rewrite (bind_eq_Ret _ _ _ _ _ E).
  unfold bind at 1, get_state. rewrite Hc, Hcache. simpl.
  unfold bind, on_heap, ret, raise. simpl. by rewrite with_objs_id.
Qed.
End UnknownName.

(* ===================================================================== *)
(** ** The loader and its cache *)

Lemma with_objs_cache st h : _cache (with_objs st h) = _cache st.
Proof. done. Qed.

Lemma memo_ok_with_objs listdir st h :
  memo_ok listdir st -> memo_ok listdir (with_objs st h).
Proof. done. Qed.

Lemma memo_ok_with_cache listdir st c :
  memo_ok listdir st -> memo_ok listdir (with_cache st c).
Proof. done. Qed.

Tactic Notation "inv_bind" hyp(H) "as" ident(a) ident(s) ident(E) :=
  apply bind_Ret in H as (a & s & E & H).

Tactic Notation "inv_heap" hyp(H) "as" ident(h) ident(E) :=
  apply on_heap_Ret in H as (h & E & ->).

Section LoaderCache.
Variable listdir : list string.
Variable dat_file : string -> option raw.
Variable parent_exceptions : pydict string string.

Let load := load listdir dat_file parent_exceptions.

(** The first statement of [load]. *)
Lemma canonical_step name st :
  memo_ok listdir st ->
  exists st',
    (if bool_decide (name = NStr "root") then ret (Some "root")
     else normalize_locale listdir name) st = Ret (canonical listdir name) st' /\
    memo_ok listdir st' /\ _cache st' = _cache st /\ objs st' = objs st.
Proof.
  intros Hok.
  destruct (normalize_locale_spec listdir name st Hok) as (st' & E & H).
  unfold canonical. case_bool_decide; [by exists st | by exists st'].
Qed.

Lemma parent_of_Ret name st p st' :
  parent_of parent_exceptions name st = Ret p st' -> st' = st.
Proof.
  unfold parent_of.
  destruct (match name with
            | Some s => dict_get parent_exceptions s | None => None end)
    as [[|c q]|]; destruct name as [s|];
    try destruct (_ =? _)%nat; unfold ret, raise; congruence.
Qed.

Lemma parent_of_Raise name st e st' :
  parent_of parent_exceptions name st = Raise e st' ->
  st' = st /\ e = AttributeError /\ name = None.
Proof.
  unfold parent_of.
  destruct (match name with
            | Some s => dict_get parent_exceptions s | None => None end)
    as [[|c q]|]; destruct name as [s|];
    try destruct (_ =? _)%nat; unfold ret, raise; intros [=]; by subst.
Qed.

(** A value that [if not data] lets through is an entry of the cache. *)
Lemma truthy_cached rec (c : pydict (option string) value) k h h' :
  truthy rec (default VNone (dict_get c k)) h = Ret true h' ->
  dict_get c k = Some (default VNone (dict_get c k)).
Proof. by destruct (dict_get c k). Qed.

(** Whatever [load] returns is, from then on, the entry of the cache for
    the canonical form of the name. *)
Lemma load_Ret_cached n name mi st v st' :
  memo_ok listdir st ->
  load n name mi st = Ret v st' ->
  dict_get (_cache st') (canonical listdir name) = Some v /\ memo_ok listdir st'.
Proof.
  revert name mi st v st'. induction n as [|n IH]; intros name mi st v st' Hok H;
    [done|].
  unfold load in H. simpl in H.
  destruct (canonical_step name st Hok) as (st1 & E1 & Hok1 & Hc1 & Ho1).
  rewrite (bind_eq_Ret _ _ _ _ _ E1) in H.
  unfold bind at 1, get_state in H.
  inv_bind H as t st2 Et. inv_heap Et as h2 Et.
  destruct t; simpl in H.
  - injection H as <- <-. split; [|done].
    simpl. by apply truthy_cached in Et.
  - inv_bind H as data0 st3 Ebase.
    destruct (dat_file (dat_name (canonical listdir name))) as [r|]; [|done].
    inv_bind H as data st4 Edata.
    unfold bind at 1, get_state in H. inv_bind H as u st5 Eput.
    injection Eput as <- <-. injection H as <- <-.
    split; [simpl; by rewrite dict_get_set_eq|].
    apply memo_ok_with_cache.
    assert (Hok3 : memo_ok listdir st3).
    { destruct (bool_decide (canonical listdir name = Some "root") || negb mi).
      - inv_heap Ebase as h3 Ebase. done.
      - inv_bind Ebase as parent st6 Eparent.
        inv_bind Ebase as p st7 Eload. inv_heap Ebase as h7 Ecopy.
        apply memo_ok_with_objs.
        eapply IH; [|exact Eload].
        by apply parent_of_Ret in Eparent as ->. }
    destruct (negb (bool_decide (canonical listdir name = Some "root")) && mi).
    + inv_bind Edata as r' st8 Epickle. inv_heap Epickle as h8 Epickle.
      inv_bind Edata as u' st9 Emerge. inv_heap Emerge as h9 Emerge.
      injection Edata as <- <-. done.
    + inv_heap Edata as h8 Epickle. done.
Qed.
End LoaderCache.

Lemma final_bind {S A B} (m : M S A) (f : A -> M S B) s s' :
  final_state (bind m f s) = Some s' ->
  (exists e, m s = Raise e s') \/
  (exists a s1, m s = Ret a s1 /\ final_state (f a s1) = Some s').
Proof.
  unfold bind. destruct (m s) as [a s1|e s1|]; simpl; intros H.
  - right. by exists a, s1.
  - left. exists e. by injection H as ->.
  - done.
Qed.

Lemma final_on_heap {A} (m : M heap A) st st' :
  final_state (on_heap m st) = Some st' -> exists h, st' = with_objs st h.
Proof.
  unfold on_heap. destruct (m (objs st)) as [a h|e h|]; simpl; [| |done];
    intros [= <-]; by exists h.
Qed.

Section LoaderInvariant.
Variable listdir : list string.
Variable dat_file : string -> option raw.
Variable parent_exceptions : pydict string string.

Let load := load listdir dat_file parent_exceptions.

(** The invariant of the default use of the loader: the lazily built
    tables are right, and nothing is cached under the key [None]. *)
Let inv (st : state) : Prop :=
  memo_ok listdir st /\ dict_get (_cache st) None = None.

Lemma inv_with_objs st h : inv st -> inv (with_objs st h).
Proof. done. Qed.

Lemma load_default_inv n name st st' :
  inv st ->
  final_state (load n name true st) = Some st' ->
  inv st'.
Proof.
  revert name st st'. induction n as [|n IH]; intros name st st' [Hok Hnone] H;
    [done|].
  unfold load in H. simpl in H.
  destruct (canonical_step listdir name st Hok) as (st1 & E1 & Hok1 & Hc1 & Ho1).
  rewrite (bind_eq_Ret _ _ _ _ _ E1) in H.
  assert (Hinv1 : inv st1) by (split; [done | by rewrite Hc1]).
  clear E1 Hok Hnone Hc1 Ho1 Hok1.
  unfold bind at 1, get_state in H.
  apply final_bind in H as [[e Ht]|(t & st2 & Et & H)].
  { apply on_heap_Raise in Ht as (h & _ & ->). by apply inv_with_objs. }
  inv_heap Et as h2 Et.
  assert (Hinv2 : inv (with_objs st1 h2)) by by apply inv_with_objs.
  set (st2 := with_objs st1 h2) in *. clearbody st2. clear Hinv1 Et.
  destruct t; simpl in H; [by injection H as <-|].
  rewrite orb_false_r, andb_true_r in H.
  apply final_bind in H as [[e Hb]|(data0 & st3 & Ebase & H)].
  - (* the base could not be computed *)
    destruct (bool_decide (canonical listdir name = Some "root")).
    { apply on_heap_Raise in Hb as (h & _ & ->). by apply inv_with_objs. }
    apply bind_Raise in Hb as [Hb|(parent & st3 & Eparent & Hb)].
    { by apply parent_of_Raise in Hb as (-> & _ & _). }
    apply parent_of_Ret in Eparent as ->.
    apply bind_Raise in Hb as [Hb|(p & st4 & Eload & Hb)].
    { apply (IH (NStr parent) st2 st' Hinv2). unfold load. by rewrite Hb. }
    apply on_heap_Raise in Hb as (h & _ & ->). apply inv_with_objs.
    apply (IH (NStr parent) st2 st4 Hinv2). unfold load. by rewrite Eload.
  - assert (Hinv3 : inv st3).
    { destruct (bool_decide (canonical listdir name = Some "root")).
      { inv_heap Ebase as h3 Ebase. by apply inv_with_objs. }
      inv_bind Ebase as parent st4 Eparent.
      apply parent_of_Ret in Eparent as ->.
      inv_bind Ebase as p st5 Eload. inv_heap Ebase as h5 Ecopy.
      apply inv_with_objs.
      apply (IH (NStr parent) st2 st5 Hinv2). unfold load. by rewrite Eload. }
    assert (Hname : canonical listdir name <> None).
    { destruct (bool_decide (canonical listdir name = Some "root")) eqn:Er.
      { apply bool_decide_eq_true in Er. by rewrite Er. }
      intros EN. rewrite EN in Ebase. done. }
    clear Ebase Hinv2.
    destruct (dat_file (dat_name (canonical listdir name))) as [r|];
      [|by injection H as <-].
    apply final_bind in H as [[e Hd]|(data & st4 & Edata & H)].
    + destruct (negb (bool_decide (canonical listdir name = Some "root"))).
      * apply bind_Raise in Hd as [Hd|(r' & st5 & Epickle & Hd)].
        { apply on_heap_Raise in Hd as (h & _ & ->). by apply inv_with_objs. }
        inv_heap Epickle as h5 Epickle.
        apply bind_Raise in Hd as [Hd|(u & st6 & Emerge & Hd)]; [|done].
        apply on_heap_Raise in Hd as (h & _ & ->). by apply inv_with_objs.
      * apply on_heap_Raise in Hd as (h & _ & ->). by apply inv_with_objs.
    + assert (Hinv4 : inv st4).
      { destruct (negb (bool_decide (canonical listdir name = Some "root"))).
        - inv_bind Edata as r' st5 Epickle. inv_heap Epickle as h5 Epickle.
          inv_bind Edata as u st6 Emerge. inv_heap Emerge as h6 Emerge.
          injection Edata as <- <-. by apply inv_with_objs.
        - inv_heap Edata as h5 Epickle. by apply inv_with_objs. }
      unfold bind, get_state, put_state, ret in H. simpl in H.
      injection H as <-. destruct Hinv4 as [Hok4 Hnone4].
      split; [done|]. simpl.
      rewrite dict_get_set_ne; [done|].
      by destruct (canonical listdir name).
Qed.

(** Every state the default use of the loader can reach satisfies the
    invariant. *)
Lemma reachable_inv st :
  reachable listdir dat_file parent_exceptions st -> inv st.
Proof.
  induction 1 as [|st n name st' _ IH H|st h _ IH].
  - split; [apply init_memo_ok | done].
  - by apply (load_default_inv n name st st').
  - by apply inv_with_objs.
Qed.
End LoaderInvariant.

(* ===================================================================== *)
(** ** C10: a name the normalizer does not know *)



(* ===================================================================== *)
(** ** C1: loading the same identifier again *)

Lemma truthy_nonempty_dict rec h v :
  nonempty_dict h v -> truthy rec v h = Ret true h.
Proof.
  intros (a & items & -> & Ha & Hne).
  unfold truthy, py_len, bind, lookup_obj. rewrite Ha. simpl.
  unfold ret. by destruct items.
Qed.

(** When the dataset that [load] returned has at least one key, the next
    [load] of the same name returns the very same object, from the cache,
    and changes neither the cache nor the heap. *)
Lemma load_again_same listdir dat_file parent_exceptions n m name mi mi' st v st1 :
  memo_ok listdir st ->
  load listdir dat_file parent_exceptions n name mi st = Ret v st1 ->
  nonempty_dict (objs st1) v ->
  exists st2,
    load listdir dat_file parent_exceptions (S m) name mi' st1 = Ret v st2 /\
    _cache st2 = _cache st1 /\ objs st2 = objs st1.
Proof.
  intros Hok Hload Hne.
  destruct (load_Ret_cached _ _ _ _ _ _ _ _ _ Hok Hload) as [Hcached Hok1].
  destruct (canonical_step listdir name st1 Hok1) as (st2 & E & _ & Hc & Ho).
  exists st2. split; [|done]. simpl.
  rewrite (bind_eq_Ret _ _ _ _ _ E).
  unfold bind at 1, get_state. rewrite Hc, Hcached. simpl.
  unfold bind at 1, on_heap. rewrite Ho.
  rewrite truthy_nonempty_dict by done. simpl.
  unfold ret. by rewrite <- Ho, with_objs_id.
Qed.

(** C1, at the failing input.  When [root.dat] holds an empty dict, the
    first [load('root')] caches its result, but the second call takes the
    cached empty dict for a miss ([if not data]), reads the file again and
    returns a new object, which replaces the first in the cache. *)
Theorem load_empty_dataset_twice :
  exists st1 st2,
    load [] files_empty_root [] 1 (NStr "root") true init = Ret (VRef 1) st1 /\
    dict_get (_cache st1) (Some "root") = Some (VRef 1) /\
    objs st1 !! 1 = Some (ODict []) /\
    load [] files_empty_root [] 1 (NStr "root") true st1 = Ret (VRef 3) st2 /\
    dict_get (_cache st2) (Some "root") = Some (VRef 3) /\
    VRef 1 <> VRef 3.
Proof.
  do 2 eexists. split; [vm_compute; reflexivity|].
  split; [reflexivity|]. split; [reflexivity|].
  split; [vm_compute; reflexivity|].
  split; [reflexivity | discriminate].
Qed.

(* ===================================================================== *)
(** ** C7: a data file is missing *)

(** C7, at the failing inputs.  The identifiers are the stems of the files
    of the directory, so an identifier without a data file is unknown to
    [normalize_locale]: [load] sets [name] to [None] and raises
    [AttributeError] on [None.split] instead of the [IOError] it documents.
    That holds for the requested identifier ([en] below) and for an
    ancestor ([en_US], whose parent [en] has no file).  Nothing is cached
    for the requested identifier. *)
Theorem load_missing_file_raises_attribute_error :
  (exists st',
     load listdir_no_en files_no_en [] 5 (NStr "en") true init
     = Raise AttributeError st' /\
     _cache st' = []) /\
  (exists st',
     load listdir_no_en files_no_en [] 5 (NStr "en_US") true init
     = Raise AttributeError st' /\
     _cache st' = []).
Proof. split; eexists; (split; [vm_compute; reflexivity | reflexivity]). Qed.

(* ===================================================================== *)
(** ** How the heap evolves *)

Lemma ext_refl h : ext h h.
Proof.
  split; [done|]. intros a. destruct (h !! a) as [[items|d b]|]; eauto.
Qed.

Lemma ext_trans h1 h2 h3 : ext h1 h2 -> ext h2 h3 -> ext h1 h3.
Proof.
  intros [L12 H12] [L23 H23]. split; [lia|]. intros a.
  specialize (H12 a). specialize (H23 a).
  destruct (h1 !! a) as [[items|d b]|]; [| |done].
  - destruct H12 as [items' E]. by rewrite E in H23.
  - by rewrite H12 in H23.
Qed.

Lemma ext_alloc h o : ext h (h ++ [o]).
Proof.
  split; [rewrite length_app; lia|]. intros a.
  destruct (h !! a) as [[items|d b]|] eqn:E; [| |done].
  - exists items. by apply lookup_app_l_Some.
  - by apply lookup_app_l_Some.
Qed.

Lemma ext_update h a items items' :
  h !! a = Some (ODict items) -> ext h (<[a := ODict items']> h).
Proof.
  intros Ha. split; [by rewrite length_insert|]. intros b.
  destruct (decide (a = b)) as [<-|Hne].
  - rewrite Ha. exists items'. apply list_lookup_insert_eq.
    by apply lookup_lt_Some in Ha.
  - rewrite list_lookup_insert_ne by done.
    destruct (h !! b) as [[its|d c]|]; eauto.
Qed.

Lemma ext_view h h' a d b :
  ext h h' -> h !! a = Some (OView d b) -> h' !! a = Some (OView d b).
Proof. intros [_ H] Ha. specialize (H a). by rewrite Ha in H. Qed.

Lemma ext_dict h h' a items :
  ext h h' -> h !! a = Some (ODict items) -> exists items', h' !! a = Some (ODict items').
Proof. intros [_ H] Ha. specialize (H a). by rewrite Ha in H. Qed.

Lemma preserves_ret {A} (a : A) : preserves (ret a).
Proof. intros h. apply ext_refl. Qed.

Lemma preserves_raise {A} e : preserves (@raise heap A e).
Proof. intros h. apply ext_refl. Qed.

Lemma preserves_bind {A B} (m : M heap A) (f : A -> M heap B) :
  preserves m -> (forall a, preserves (f a)) -> preserves (bind m f).
Proof.
  intros Hm Hf h. specialize (Hm h). unfold bind.
  destruct (m h) as [a h1|e h1|]; [|done|done].
  specialize (Hf a h1).
  destruct (f a h1) as [b h2|e h2|]; [| |done]; by eapply ext_trans.
Qed.

Lemma preserves_catch {A} (m : M heap A) e (k : M heap A) :
  preserves m -> preserves k -> preserves (catch m e k).
Proof.
  intros Hm Hk h. specialize (Hm h). unfold catch.
  destruct (m h) as [a h1|e' h1|]; [done| |done].
  destruct (decide (e' = e)); [|done].
  specialize (Hk h1).
  destruct (k h1) as [b h2|e2 h2|]; [| |done]; by eapply ext_trans.
Qed.

Lemma preserves_lookup_obj a : preserves (lookup_obj a).
Proof. intros h. unfold lookup_obj. destruct (h !! a); [apply ext_refl | done]. Qed.

Lemma preserves_alloc o : preserves (alloc o).
Proof. intros h. apply ext_alloc. Qed.

Lemma preserves_for_each {A} (f : A -> M heap unit) l :
  (forall x, preserves (f x)) -> preserves (for_each f l).
Proof.
  intros Hf. induction l as [|x l IH]; simpl.
  - apply preserves_ret.
  - apply preserves_bind; [apply Hf | by intros _].
Qed.

Lemma preserves_map_each {A B} (f : A -> M heap B) l :
  (forall x, preserves (f x)) -> preserves (map_each f l).
Proof.
  intros Hf. induction l as [|x l IH]; simpl.
  - apply preserves_ret.
  - apply preserves_bind; [apply Hf | intros y].
    apply preserves_bind; [apply IH | intros ys; apply preserves_ret].
Qed.

Lemma preserves_fold_each {A B} (f : B -> A -> M heap B) l acc :
  (forall b x, preserves (f b x)) -> preserves (fold_each f l acc).
Proof.
  intros Hf. revert acc. induction l as [|x l IH]; intros acc; simpl.
  - apply preserves_ret.
  - apply preserves_bind; [apply Hf | intros acc'; apply IH].
Qed.

(** Reading an object and branching on its kind. *)
Lemma preserves_on_obj {A} a (kd : pydict key value -> M heap A)
    (kv : value -> value -> M heap A) :
  (forall items h, h !! a = Some (ODict items) ->
     match kd items h with
     | Ret _ h' => ext h h' | Raise _ h' => ext h h' | Diverge => True
     end) ->
  (forall d b, preserves (kv d b)) ->
  preserves (o <- lookup_obj a ;;
             match o with ODict items => kd items | OView d b => kv d b end).
Proof.
  intros Hd Hv h. unfold bind, lookup_obj.
  destruct (h !! a) as [[items|d b]|] eqn:E; [by apply Hd | apply Hv | done].
Qed.

Section StepPreserves.
Variable rec : funs.
Hypothesis Hrec : funs_preserve rec.

Let Hgetitem := proj1 Hrec.
Let Hsetitem := proj1 (proj2 Hrec).
Let Hiter := proj1 (proj2 (proj2 Hrec)).
Let Hlen := proj1 (proj2 (proj2 (proj2 Hrec))).
Let Hcopy := proj1 (proj2 (proj2 (proj2 (proj2 Hrec)))).
Let Hresolve := proj1 (proj2 (proj2 (proj2 (proj2 (proj2 Hrec))))).
Let Hmerge := proj2 (proj2 (proj2 (proj2 (proj2 (proj2 Hrec))))).

Ltac on_kind :=
  apply preserves_on_obj;
  [intros items h Hh; simpl | intros d b].

Lemma preserves_subscript v k : preserves (subscript rec v k).
Proof.
  destruct v; try apply preserves_raise. on_kind.
  - destruct (dict_get items k); apply ext_refl.
  - apply Hgetitem.
Qed.

Lemma preserves_assign v k x : preserves (assign rec v k x).
Proof.
  destruct v; try apply preserves_raise. on_kind.
  - by eapply ext_update.
  - apply Hsetitem.
Qed.

Lemma preserves_iter_keys v : preserves (iter_keys rec v).
Proof.
  destruct v; try apply preserves_raise. on_kind.
  - apply ext_refl.
  - apply Hiter.
Qed.

Lemma preserves_py_len v : preserves (py_len rec v).
Proof.
  destruct v; try apply preserves_raise; try apply preserves_ret. on_kind.
  - apply ext_refl.
  - apply Hlen.
Qed.

Lemma preserves_copy_value v : preserves (copy_value rec v).
Proof.
  destruct v; try apply preserves_raise. on_kind.
  - apply ext_alloc.
  - apply Hcopy.
Qed.

Lemma preserves_mapping_get v k : preserves (mapping_get rec v k).
Proof.
  destruct v; try apply preserves_raise. on_kind.
  - apply ext_refl.
  - apply preserves_catch; [apply Hgetitem | apply preserves_ret].
Qed.

Lemma preserves_mapping_items v : preserves (mapping_items rec v).
Proof.
  destruct v; try apply preserves_raise. on_kind.
  - apply ext_refl.
  - apply preserves_bind; [apply Hiter | intros ks].
    apply preserves_map_each. intros k.
    apply preserves_bind; [apply Hgetitem | intros x; apply preserves_ret].
Qed.

Lemma preserves_view_fields v : preserves (view_fields v).
Proof.
  destruct v; try apply preserves_raise. on_kind.
  - apply ext_refl.
  - apply preserves_ret.
Qed.

Lemma preserves_is_dict v : preserves (is_dict v).
Proof.
  destruct v; try apply preserves_ret.
  apply preserves_bind; [apply preserves_lookup_obj | intros o; apply preserves_ret].
Qed.

Lemma preserves_resolve_body keys v : preserves (resolve_body rec keys v).
Proof.
  apply preserves_bind.
  - apply preserves_fold_each. apply preserves_subscript.
  - intros data. destruct data; try apply preserves_ret; apply Hresolve.
Qed.

Lemma preserves_merge_item dict1 item : preserves (merge_item rec dict1 item).
Proof.
  destruct item as [k val2]. unfold merge_item.
  assert (Hgo : preserves
    (val1 <- mapping_get rec dict1 k ;;
     d <- is_dict val2 ;;
     val1 <- (if d : bool then
                val1 <- (match val1 with
                         | VNone => alloc (ODict [])
                         | _ => ret val1
                         end) ;;
                match val1 with
                | VAlias alias => ret (VTuple alias val2)
                | VTuple alias others =>
                    others <- copy_value rec others ;;
                    f_merge rec others val2 ;;;
                    ret (VTuple alias others)
                | _ =>
                    val1 <- copy_value rec val1 ;;
                    f_merge rec val1 val2 ;;;
                    ret val1
                end
              else ret val2) ;;
     assign rec dict1 k val1)).
  { apply preserves_bind; [apply preserves_mapping_get | intros val1].
    apply preserves_bind; [apply preserves_is_dict | intros d].
    apply preserves_bind; [|intros w; apply preserves_assign].
    destruct d; [|apply preserves_ret].
    apply preserves_bind.
    { destruct val1; try apply preserves_ret. apply preserves_alloc. }
    intros w.
    assert (Hdflt : preserves (val1 <- copy_value rec w ;;
                                f_merge rec val1 val2 ;;; ret val1)).
    { apply preserves_bind; [apply preserves_copy_value | intros c].
      apply preserves_bind; [apply Hmerge | intros _; apply preserves_ret]. }
    destruct w; try exact Hdflt.
    apply preserves_bind; [apply preserves_copy_value | intros c].
    apply preserves_bind; [apply Hmerge | intros _; apply preserves_ret]. }
  destruct val2; try exact Hgo. apply preserves_ret.
Qed.

Lemma preserves_merge_body v w : preserves (merge_body rec v w).
Proof.
  apply preserves_bind; [apply preserves_mapping_items | intros items].
  apply preserves_for_each. apply preserves_merge_item.
Qed.

Lemma preserves_LocaleDataDict d b : preserves (LocaleDataDict d b).
Proof. apply preserves_alloc. Qed.

Lemma preserves_getitem_body v k : preserves (getitem_body rec v k).
Proof.
  apply preserves_bind; [apply preserves_view_fields | intros [data base]].
  apply preserves_bind; [apply preserves_subscript | intros orig].
  apply preserves_bind.
  { destruct orig; try apply preserves_ret. apply Hresolve. }
  intros val. apply preserves_bind.
  { destruct val; try apply preserves_ret.
    apply preserves_bind; [apply Hresolve | intros target].
    apply preserves_bind; [apply preserves_copy_value | intros c].
    apply preserves_bind; [apply Hmerge | intros _; apply preserves_ret]. }
  intros val'. apply preserves_bind; [apply preserves_is_dict | intros d].
  apply preserves_bind.
  { destruct d; [apply preserves_LocaleDataDict | apply preserves_ret]. }
  intros val''. apply preserves_bind; [|intros _; apply preserves_ret].
  destruct (negb (py_is val'' orig)); [apply preserves_assign | apply preserves_ret].
Qed.

Lemma step_preserves : funs_preserve (step rec).
Proof.
  repeat split; simpl.
  - apply preserves_getitem_body.
  - intros v k x. apply preserves_bind; [apply preserves_view_fields | intros [d b]].
    apply preserves_assign.
  - intros v. apply preserves_bind; [apply preserves_view_fields | intros [d b]].
    apply preserves_iter_keys.
  - intros v. apply preserves_bind; [apply preserves_view_fields | intros [d b]].
    apply preserves_py_len.
  - intros v. apply preserves_bind; [apply preserves_view_fields | intros [d b]].
    apply preserves_bind; [apply preserves_copy_value | intros c].
    apply preserves_LocaleDataDict.
  - apply preserves_resolve_body.
  - apply preserves_merge_body.
Qed.
End StepPreserves.

(** Every function of the module evolves the heap by [ext], whatever the
    recursion budget and however the call ends. *)
Lemma interp_preserves n : funs_preserve (interp n).
Proof.
  induction n as [|n IH]; [by repeat split | by apply step_preserves].
Qed.

(* ===================================================================== *)
(** ** C6: [Alias.resolve] *)

Lemma resolve_S n keys base :
  resolve (S n) keys base = resolve_body (interp n) keys base.
Proof. reflexivity. Qed.

Lemma getitem_S n self k :
  getitem (S n) self k = getitem_body (interp n) self k.
Proof. reflexivity. Qed.

Lemma merge_S n dict1 dict2 :
  merge (S n) dict1 dict2 = merge_body (interp n) dict1 dict2.
Proof. reflexivity. Qed.

(** [Alias.resolve] never returns an alias or a pair. *)
Lemma resolve_resolved n keys base h v h' :
  resolve n keys base h = Ret v h' -> resolved v = true.
Proof.
  revert keys h v h'. induction n as [|n IH]; intros keys h v h' H; [done|].
  rewrite resolve_S in H. unfold resolve_body in H.
  apply bind_Ret in H as (data & h1 & _ & H).
  destruct data; try (by injection H as <- _); by eapply IH.
Qed.

(** Following keys through plain dicts runs no code and changes nothing. *)
Lemma walk_lookup_path rec h base keys v :
  lookup_path h base keys = Some v ->
  fold_each (subscript rec) keys base h = Ret v h.
Proof.
  revert base. induction keys as [|k keys IH]; intros base H; simpl in *.
  - by injection H as ->.
  - destruct base as [| | | |a]; try done.
    destruct (h !! a) as [[items|]|] eqn:Ea; try done.
    destruct (dict_get items k) as [x|] eqn:Ek; [|done].
    unfold bind at 1. simpl. unfold bind at 1, lookup_obj. rewrite Ea. simpl.
    rewrite Ek. simpl. by apply IH.
Qed.

Lemma resolve_step n keys base h data h1 :
  fold_each (subscript (interp n)) keys base h = Ret data h1 ->
  resolve (S n) keys base h =
    match data with
    | VAlias keys' => resolve n keys' base h1
    | VTuple alias _ => resolve n alias base h1
    | _ => Ret data h1
    end.
Proof.
  intros H. rewrite resolve_S. unfold resolve_body.
  rewrite (bind_eq_Ret _ _ _ _ _ H). by destruct data.
Qed.

Lemma resolve_resolves_to h base d keys v :
  resolves_to h base d keys v ->
  forall n, d < n -> resolve n keys base h = Ret v h.
Proof.
  induction 1 as [keys v Hp Hv|keys keys' d v Hp _ IH|keys alias overlay d v Hp _ IH];
    intros [|n] Hn; try lia.
  - rewrite (resolve_step n keys base h v h) by by apply walk_lookup_path.
    by destruct v.
  - rewrite (resolve_step n keys base h _ h (walk_lookup_path _ _ _ _ _ Hp)).
    apply IH. lia.
  - rewrite (resolve_step n keys base h _ h (walk_lookup_path _ _ _ _ _ Hp)).
    apply IH. lia.
Qed.

(** C6.  [Alias.resolve(base)] walks the keys of the alias through [base]
    by subscription.  Whatever the walk reaches: a value that is an [Alias]
    is resolved, recursively, against the same [base]; of a pair
    [(inner_alias, overlay)] the inner alias is resolved against [base] and
    the overlay is ignored, whatever it is; any other value is the result.
    On a dataset of plain dicts this makes [resolve] compute [resolves_to]:
    with a budget above the number of aliases to follow it returns the
    value and leaves the heap as it was. *)
Theorem resolve_correct :
  (forall n keys base h data h1,
     fold_each (subscript (interp n)) keys base h = Ret data h1 ->
     resolve (S n) keys base h =
       match data with
       | VAlias keys' => resolve n keys' base h1
       | VTuple inner_alias overlay => resolve n inner_alias base h1
       | _ => Ret data h1
       end) /\
  (forall n keys base h e h1,
     fold_each (subscript (interp n)) keys base h = Raise e h1 ->
     resolve (S n) keys base h = Raise e h1) /\
  (forall h base d keys v n,
     resolves_to h base d keys v -> d < n ->
     resolve n keys base h = Ret v h).
Proof.
  split; [exact resolve_step|]. split.
  - intros n keys base h e h1 H. rewrite resolve_S. unfold resolve_body.
    by rewrite (bind_eq_Raise _ _ _ _ _ H).
  - intros h base d keys v n H Hn. by eapply resolve_resolves_to.
Qed.

Lemma resolve_correct_witness :
  resolves_to sample_heap (VRef 0) 2 ["q"] (VRef 1) /\
  resolve 3 ["q"] (VRef 0) sample_heap = Ret (VRef 1) sample_heap /\
  resolve 3 ["y"] (VRef 0) sample_heap = Ret (VScalar "Swedish") sample_heap.
Proof.
  assert (Hq : resolves_to sample_heap (VRef 0) 2 ["q"] (VRef 1)).
  { eapply resolves_alias; [reflexivity|].
    eapply resolves_pair; [reflexivity|].
    by apply resolves_value. }
  split; [exact Hq|]. split.
  - apply (proj2 (proj2 resolve_correct) sample_heap (VRef 0) 2 ["q"] (VRef 1) 3 Hq).
    lia.
  - apply (proj2 (proj2 resolve_correct) sample_heap (VRef 0) 2 ["y"] _ 3); [|lia].
    eapply resolves_alias; [reflexivity|].
    eapply resolves_alias; [reflexivity|].
    by apply resolves_value.
Defined.

(* ===================================================================== *)
(** ** The alias-resolving view *)

Lemma view_fields_eq h a d b :
  h !! a = Some (OView d b) -> view_fields (VRef a) h = Ret (d, b) h.
Proof. intros Ha. unfold view_fields, bind, lookup_obj. by rewrite Ha. Qed.

Lemma subscript_dict rec h d items k x :
  h !! d = Some (ODict items) -> dict_get items k = Some x ->
  subscript rec (VRef d) k h = Ret x h.
Proof.
  intros Hd Hk. unfold subscript, bind, lookup_obj. rewrite Hd. simpl.
  by rewrite Hk.
Qed.

Lemma assign_dict rec h d items k x :
  h !! d = Some (ODict items) ->
  assign rec (VRef d) k x h = Ret tt (<[d := ODict (dict_set items k x)]> h).
Proof. intros Hd. unfold assign, bind, lookup_obj. by rewrite Hd. Qed.

Lemma is_dict_pure v h b h' : is_dict v h = Ret b h' -> h' = h.
Proof.
  destruct v; try (by intros [= _ <-]).
  unfold is_dict, bind, lookup_obj. destruct (h !! a); [|done].
  by intros [= _ <-].
Qed.

Lemma is_dict_resolved_ne v (h : heap) b orig :
  resolved v = true -> resolved orig = false ->
  py_is (if b : bool then VRef (List.length h) else v) orig = false.
Proof.
  intros Hv Ho. unfold py_is. apply bool_decide_eq_false. intros <-.
  destruct b; [done|]. congruence.
Qed.

(** A value that is already resolved and is not a plain dict is returned
    as it is: no call is made (a budget of one suffices) and nothing is
    written. *)
Lemma getitem_memoized m a k h d base items v :
  h !! a = Some (OView (VRef d) base) ->
  h !! d = Some (ODict items) ->
  dict_get items k = Some v ->
  resolved v = true ->
  is_dict v h = Ret false h ->
  getitem (S m) (VRef a) k h = Ret v h.
Proof.
  intros Ha Hd Hk Hv Hdict. rewrite getitem_S. unfold getitem_body.
  rewrite (bind_eq_Ret _ _ _ _ _ (view_fields_eq _ _ _ _ Ha)).
  rewrite (bind_eq_Ret _ _ _ _ _ (subscript_dict _ _ _ _ _ _ Hd Hk)).
  destruct v; try done; unfold bind at 1; simpl;
    unfold bind at 1; simpl;
    (rewrite (bind_eq_Ret _ _ _ _ _ Hdict) || (unfold bind at 1; simpl));
    unfold bind at 1; simpl;
    unfold py_is; rewrite bool_decide_eq_true_2 by done; done.
Qed.

(** Reading a key under which the backing dict stores an [Alias]. *)
Lemma getitem_alias n a k h d base items keys v h1 b :
  h !! a = Some (OView (VRef d) base) ->
  h !! d = Some (ODict items) ->
  dict_get items k = Some (VAlias keys) ->
  resolve n keys base h = Ret v h1 ->
  is_dict v h1 = Ret b h1 ->
  let view := OView v (match base with VNone => v | _ => base end) in
  let h1' := if b then h1 ++ [view] else h1 in
  let v' := if b then VRef (List.length h1) else v in
  exists items1,
    h1' !! d = Some (ODict items1) /\
    getitem (S n) (VRef a) k h = Ret v' (<[d := ODict (dict_set items1 k v')]> h1').
Proof.
  intros Ha Hd Hk Hres Hdict view h1' v'.
  assert (Hext : ext h h1').
  { pose proof (proj1 (proj2 (proj2 (proj2 (proj2 (proj2 (interp_preserves n))))))
                  keys base h) as Hp.
    unfold resolve in Hres. rewrite Hres in Hp.
    subst h1'. destruct b; [|done].
    eapply ext_trans; [exact Hp | apply ext_alloc]. }
  destruct (ext_dict _ _ _ _ Hext Hd) as [items1 Hd1].
  exists items1. split; [done|].
  pose proof (resolve_resolved _ _ _ _ _ _ Hres) as Hv.
  rewrite getitem_S. unfold getitem_body.
  rewrite (bind_eq_Ret _ _ _ _ _ (view_fields_eq _ _ _ _ Ha)).
  rewrite (bind_eq_Ret _ _ _ _ _ (subscript_dict _ _ _ _ _ _ Hd Hk)).
  fold (resolve n). rewrite (bind_eq_Ret _ _ _ _ _ Hres).
  assert (Hsecond :
    (match v with
     | VTuple alias others =>
         target <- f_resolve (interp n) alias base ;;
         val <- copy_value (interp n) target ;;
         f_merge (interp n) val others ;;; ret val
     | _ => ret v
     end) h1 = Ret v h1) by by destruct v.
  rewrite (bind_eq_Ret _ _ _ _ _ Hsecond).
  rewrite (bind_eq_Ret _ _ _ _ _ Hdict).
  assert (Hwrap : (if b then LocaleDataDict v base else ret v) h1 = Ret v' h1').
  { subst v' h1' view. by destruct b. }
  rewrite (bind_eq_Ret _ _ _ _ _ Hwrap).
  replace (py_is v' (VAlias keys)) with false
    by (symmetry; by apply is_dict_resolved_ne).
  cbn [negb]. rewrite (bind_eq_Ret _ _ _ _ _ (assign_dict _ _ _ _ _ _ Hd1)).
  reflexivity.
Qed.

Lemma is_dict_view h t d b :
  h !! t = Some (OView d b) -> is_dict (VRef t) h = Ret false h.
Proof. intros Ht. unfold is_dict, bind, lookup_obj. by rewrite Ht. Qed.

Lemma is_dict_dict h t items :
  h !! t = Some (ODict items) -> is_dict (VRef t) h = Ret true h.
Proof. intros Ht. unfold is_dict, bind, lookup_obj. by rewrite Ht. Qed.

Lemma is_dict_false_update v h d items items' :
  is_dict v h = Ret false h ->
  h !! d = Some (ODict items) ->
  is_dict v (<[d := ODict items']> h) = Ret false (<[d := ODict items']> h).
Proof.
  intros Hv Hd. destruct v as [| | | |t]; try done.
  destruct (h !! t) as [[its|dd bb]|] eqn:Et.
  - rewrite (is_dict_dict _ _ _ Et) in Hv. done.
  - apply (is_dict_view _ _ dd bb).
    rewrite list_lookup_insert_ne; [done|]. intros ->. congruence.
  - unfold is_dict, bind, lookup_obj in Hv. by rewrite Et in Hv.
Qed.

Lemma preserved_Ret {A} (m : M heap A) h a h' :
  preserves m -> m h = Ret a h' -> ext h h'.
Proof. intros Hm E. specialize (Hm h). by rewrite E in Hm. Qed.

Lemma getitem_alias_then_memoized n a k h d base items keys v h1 b :
   h !! a = Some (OView (VRef d) base) ->
   h !! d = Some (ODict items) ->
   dict_get items k = Some (VAlias keys) ->
   resolve n keys base h = Ret v h1 ->
   is_dict v h1 = Ret b h1 ->
   exists items1,
     let view := OView v (match base with VNone => v | _ => base end) in
     let h1' := if b then h1 ++ [view] else h1 in
     let v' := if b then VRef (List.length h1) else v in
     let h2 := <[d := ODict (dict_set items1 k v')]> h1' in
     h1' !! d = Some (ODict items1) /\
     getitem (S n) (VRef a) k h = Ret v' h2 /\
     forall m, getitem (S m) (VRef a) k h2 = Ret v' h2.
Proof.
  intros Ha Hd Hk Hres Hdict.
  destruct (getitem_alias n a k h d base items keys v h1 b Ha Hd Hk Hres Hdict)
    as (items1 & Hd1 & Hget).
  exists items1. cbn zeta. split; [done|]. split; [done|].
  set (view := OView v (match base with VNone => v | _ => base end)) in *.
  set (h1' := if b then h1 ++ [view] else h1) in *.
  set (v' := if b then VRef (List.length h1) else v) in *.
  assert (Hext : ext h h1').
  { pose proof (proj1 (proj2 (proj2 (proj2 (proj2 (proj2 (interp_preserves n))))))
                  keys base h) as Hp.
    unfold resolve in Hres. rewrite Hres in Hp.
    subst h1'. destruct b; [|done].
    eapply ext_trans; [exact Hp | apply ext_alloc]. }
  pose proof (ext_view _ _ _ _ _ Hext Ha) as Ha1.
  assert (Had : a <> d) by (intros ->; congruence).
  pose proof (lookup_lt_Some _ _ _ Hd1) as Hlt.
  intros m. apply (getitem_memoized m a k _ d base (dict_set items1 k v')).
  - by rewrite list_lookup_insert_ne.
  - by rewrite list_lookup_insert_eq.
  - apply dict_get_set_eq.
  - subst v'. destruct b; [done|]. by eapply resolve_resolved.
  - apply (is_dict_false_update _ _ _ items1); [|done].
    subst v' h1'. destruct b; [|done].
    apply (is_dict_view _ _ v (match base with VNone => v | _ => base end)).
    by rewrite lookup_app_r, Nat.sub_diag.
Qed.

(** C3.  Let the backing dict of a view store an [Alias] under [k], and let
    the alias resolve, against the base of the view, to [v].  Then reading
    [view[k]] returns [v] (inside a new view with the same base when [v] is
    a plain dict) and stores what it returns in the backing dict under [k].
    Every later read of [k] returns that same value and leaves the heap
    untouched, with any budget: it makes no call at all, so the alias is
    not walked again.  When the key path of the alias leads through plain
    dicts to a value that is no dict, that value is what both reads
    return. *)
Theorem getitem_alias_memoizes :
  (forall n a k h d base items keys v h1 b,
     h !! a = Some (OView (VRef d) base) ->
     h !! d = Some (ODict items) ->
     dict_get items k = Some (VAlias keys) ->
     resolve n keys base h = Ret v h1 ->
     is_dict v h1 = Ret b h1 ->
     exists v' h2 items2,
       getitem (S n) (VRef a) k h = Ret v' h2 /\
       (if b then
          v' = VRef (List.length h1) /\
          h2 !! List.length h1
          = Some (OView v (match base with VNone => v | _ => base end))
        else v' = v) /\
       h2 !! d = Some (ODict items2) /\
       dict_get items2 k = Some v' /\
       forall m, getitem (S m) (VRef a) k h2 = Ret v' h2) /\
  (forall n a k h d base items keys hops v,
     h !! a = Some (OView (VRef d) base) ->
     h !! d = Some (ODict items) ->
     dict_get items k = Some (VAlias keys) ->
     resolves_to h base hops keys v -> hops < n ->
     is_dict v h = Ret false h ->
     let h2 := <[d := ODict (dict_set items k v)]> h in
     getitem (S n) (VRef a) k h = Ret v h2 /\
     forall m, getitem (S m) (VRef a) k h2 = Ret v h2).
Proof.
  split.
  - intros n a k h d base items keys v h1 b Ha Hd Hk Hres Hdict.
    destruct (getitem_alias_then_memoized n a k h d base items keys v h1 b
                Ha Hd Hk Hres Hdict)
      as (items1 & Hd1 & Hget & Hagain). cbn zeta in *.
    pose proof (lookup_lt_Some _ _ _ Hd1) as Hlt.
    eexists _, _, _. split; [exact Hget|].
    split; [|split; [by apply list_lookup_insert_eq|]].
    + destruct b; [|done]. split; [done|].
      assert (d <> List.length h1).
      { intros ->. rewrite lookup_app_r, Nat.sub_diag in Hd1 by done. done. }
      rewrite list_lookup_insert_ne by done.
      by rewrite lookup_app_r, Nat.sub_diag.
    + split; [apply dict_get_set_eq | exact Hagain].
  - intros n a k h d base items keys hops v Ha Hd Hk Hres Hn Hdict h2.
    pose proof (resolve_resolves_to _ _ _ _ _ Hres n Hn) as Hr.
    destruct (getitem_alias_then_memoized n a k h d base items keys v h false
                Ha Hd Hk Hr Hdict)
      as (items1 & Hd1 & Hget & Hagain). cbn zeta in *.
    assert (items1 = items) as -> by congruence.
    by split.
Qed.

Lemma getitem_alias_memoizes_witness :
  let h2 := <[0 := ODict (dict_set [("languages", VRef 1);
                                    ("x", VAlias ["languages"; "sv"]);
                                    ("y", VAlias ["x"]);
                                    ("z", VAlias ["languages"]);
                                    ("p", VTuple ["languages"] (VRef 2));
                                    ("q", VAlias ["p"])]
                                   "y" (VScalar "Swedish"))]> sample_heap in
  getitem 3 (VRef 4) "y" sample_heap = Ret (VScalar "Swedish") h2 /\
  forall m, getitem (S m) (VRef 4) "y" h2 = Ret (VScalar "Swedish") h2.
Proof.
  refine (proj2 getitem_alias_memoizes 2 4 "y" sample_heap 0 (VRef 0) _ ["x"] 1
            (VScalar "Swedish") _ _ _ _ _ _); try reflexivity; [|lia].
  eapply resolves_alias; [reflexivity|]. by apply resolves_value.
Defined.

(** [copy()] returns a new object. *)
Lemma copy_value_ref n v h c h' :
  copy_value (interp n) v h = Ret c h' -> exists ca, c = VRef ca.
Proof.
  destruct v as [| | | |t]; try done.
  unfold copy_value, bind, lookup_obj.
  destruct (h !! t) as [[items|d b]|]; [| |done].
  - unfold alloc. intros [= <- _]. eauto.
  - destruct n as [|n]; [done|]. simpl. unfold copy_body. intros H.
    apply bind_Ret in H as ([d' b'] & h1 & _ & H).
    apply bind_Ret in H as (data' & h2 & _ & H).
    unfold LocaleDataDict, alloc in H. injection H as <- _. eauto.
Qed.

(** Reading a key under which the backing dict stores a partial-alias
    pair. *)
Lemma getitem_pair n a k h d base items alias others target h1 c h2 h3 b :
  h !! a = Some (OView (VRef d) base) ->
  h !! d = Some (ODict items) ->
  dict_get items k = Some (VTuple alias others) ->
  resolve n alias base h = Ret target h1 ->
  copy_value (interp n) target h1 = Ret c h2 ->
  merge n c others h2 = Ret tt h3 ->
  is_dict c h3 = Ret b h3 ->
  let view := OView c (match base with VNone => c | _ => base end) in
  let h3' := if b then h3 ++ [view] else h3 in
  let v' := if b then VRef (List.length h3) else c in
  exists items3,
    h3' !! d = Some (ODict items3) /\
    getitem (S n) (VRef a) k h = Ret v' (<[d := ODict (dict_set items3 k v')]> h3').
Proof.
  intros Ha Hd Hk Hres Hcopy Hmerge Hdict view h3' v'.
  pose proof (interp_preserves n) as (_ & _ & _ & _ & _ & Hpr & Hpm).
  assert (Hext : ext h h3').
  { eapply ext_trans; [exact (preserved_Ret _ _ _ _ (Hpr alias base) Hres)|].
    eapply ext_trans;
      [exact (preserved_Ret _ _ _ _ (preserves_copy_value _ (interp_preserves n) target) Hcopy)|].
    eapply ext_trans; [exact (preserved_Ret _ _ _ _ (Hpm c others) Hmerge)|].
    subst h3'. destruct b; [apply ext_alloc | apply ext_refl]. }
  destruct (ext_dict _ _ _ _ Hext Hd) as [items3 Hd3].
  exists items3. split; [done|].
  destruct (copy_value_ref _ _ _ _ _ Hcopy) as [ca ->].
  rewrite getitem_S. unfold getitem_body.
  rewrite (bind_eq_Ret _ _ _ _ _ (view_fields_eq _ _ _ _ Ha)).
  rewrite (bind_eq_Ret _ _ _ _ _ (subscript_dict _ _ _ _ _ _ Hd Hk)).
  unfold bind at 1, ret at 1. cbn iota.
  fold (resolve n) (merge n).
  assert (Hcore :
    (target <- resolve n alias base ;;
     val <- copy_value (interp n) target ;;
     merge n val others ;;; ret val) h = Ret (VRef ca) h3).
  { rewrite (bind_eq_Ret _ _ _ _ _ Hres), (bind_eq_Ret _ _ _ _ _ Hcopy).
    by rewrite (bind_eq_Ret _ _ _ _ _ Hmerge). }
  rewrite (bind_eq_Ret _ _ _ _ _ Hcore).
  rewrite (bind_eq_Ret _ _ _ _ _ Hdict).
  assert (Hwrap : (if b then LocaleDataDict (VRef ca) base else ret (VRef ca)) h3
                  = Ret v' h3').
  { subst v' h3' view. by destruct b. }
  rewrite (bind_eq_Ret _ _ _ _ _ Hwrap).
  replace (py_is v' (VTuple alias others)) with false
    by (symmetry; by apply is_dict_resolved_ne).
  cbn [negb]. rewrite (bind_eq_Ret _ _ _ _ _ (assign_dict _ _ _ _ _ _ Hd3)).
  reflexivity.
Qed.

(** Reading a key under which the backing dict stores a plain dict. *)
Lemma getitem_dict n a k h d base items t titems :
  h !! a = Some (OView (VRef d) base) ->
  h !! d = Some (ODict items) ->
  dict_get items k = Some (VRef t) ->
  h !! t = Some (ODict titems) ->
  let view := OView (VRef t) (match base with VNone => VRef t | _ => base end) in
  let v' := VRef (List.length h) in
  getitem (S n) (VRef a) k h
  = Ret v' (<[d := ODict (dict_set items k v')]> (h ++ [view])).
Proof.
  intros Ha Hd Hk Ht view v'.
  rewrite getitem_S. unfold getitem_body.
  rewrite (bind_eq_Ret _ _ _ _ _ (view_fields_eq _ _ _ _ Ha)).
  rewrite (bind_eq_Ret _ _ _ _ _ (subscript_dict _ _ _ _ _ _ Hd Hk)).
  unfold bind at 1, ret at 1. cbn iota.
  unfold bind at 1, ret at 1. cbn iota.
  rewrite (bind_eq_Ret _ _ _ _ _ (is_dict_dict _ _ _ Ht)).
  unfold bind at 1, LocaleDataDict, alloc. fold view. fold v'.
  assert (Hne : py_is v' (VRef t) = false).
  { apply bool_decide_eq_false. intros [= E].
    apply lookup_lt_Some in Ht. lia. }
  rewrite Hne. cbn [negb].
  assert (Hd' : (h ++ [view]) !! d = Some (ODict items))
    by by apply lookup_app_l_Some.
  by rewrite (bind_eq_Ret _ _ _ _ _ (assign_dict _ _ _ _ _ _ Hd')).
Qed.

(* ===================================================================== *)
(** ** C9: the view stores the wrapper *)

Lemma stores_view_after h d k items target base :
  h !! d = Some (ODict items) ->
  let view := OView target (match base with VNone => target | _ => base end) in
  let h' := h ++ [view] in
  exists items',
    h' !! d = Some (ODict items') /\
    stores_view (<[d := ODict (dict_set items' k (VRef (List.length h)))]> h')
      d k (List.length h) target base.
Proof.
  intros Hd view h'. exists items.
  assert (Hd' : h' !! d = Some (ODict items)) by by apply lookup_app_l_Some.
  split; [done|].
  pose proof (lookup_lt_Some _ _ _ Hd) as Hlt.
  pose proof (lookup_lt_Some _ _ _ Hd') as Hlt'.
  exists (dict_set items k (VRef (List.length h))).
  split; [by apply list_lookup_insert_eq|].
  split; [apply dict_get_set_eq|].
  rewrite list_lookup_insert_ne by lia.
  subst h'. by rewrite lookup_app_r, Nat.sub_diag.
Qed.

(** C9.  When the value that a read through a view arrives at is a plain
    dict (stored under the key as it is, reached through an [Alias], or made
    from a partial-alias pair), the read allocates a new [LocaleDataDict]
    over that dict, returns it, and stores this very view object in the
    backing dict under the key, in the place of the dict, alias or pair.
    The backing dict may be a cached dataset: the cache keeps pointing to
    it, and it now holds a view object. *)
Theorem getitem_stores_view :
  (forall n a k h d base items t titems,
     h !! a = Some (OView (VRef d) base) ->
     h !! d = Some (ODict items) ->
     dict_get items k = Some (VRef t) ->
     h !! t = Some (ODict titems) ->
     exists h2,
       getitem (S n) (VRef a) k h = Ret (VRef (List.length h)) h2 /\
       stores_view h2 d k (List.length h) (VRef t) base) /\
  (forall n a k h d base items keys t titems h1,
     h !! a = Some (OView (VRef d) base) ->
     h !! d = Some (ODict items) ->
     dict_get items k = Some (VAlias keys) ->
     resolve n keys base h = Ret (VRef t) h1 ->
     h1 !! t = Some (ODict titems) ->
     exists h2,
       getitem (S n) (VRef a) k h = Ret (VRef (List.length h1)) h2 /\
       stores_view h2 d k (List.length h1) (VRef t) base) /\
  (forall n a k h d base items alias others target h1 c h2 h3 citems,
     h !! a = Some (OView (VRef d) base) ->
     h !! d = Some (ODict items) ->
     dict_get items k = Some (VTuple alias others) ->
     resolve n alias base h = Ret target h1 ->
     copy_value (interp n) target h1 = Ret (VRef c) h2 ->
     merge n (VRef c) others h2 = Ret tt h3 ->
     h3 !! c = Some (ODict citems) ->
     exists h4,
       getitem (S n) (VRef a) k h = Ret (VRef (List.length h3)) h4 /\
       stores_view h4 d k (List.length h3) (VRef c) base) /\
  (forall n st name a k d base items t titems,
     dict_get (_cache st) name = Some (VRef d) ->
     objs st !! a = Some (OView (VRef d) base) ->
     objs st !! d = Some (ODict items) ->
     dict_get items k = Some (VRef t) ->
     objs st !! t = Some (ODict titems) ->
     exists st',
       on_heap (getitem (S n) (VRef a) k) st
       = Ret (VRef (List.length (objs st))) st' /\
       dict_get (_cache st') name = Some (VRef d) /\
       stores_view (objs st') d k (List.length (objs st)) (VRef t) base).
Proof.
  assert (Hdirect : forall n a k h d base items t titems,
     h !! a = Some (OView (VRef d) base) ->
     h !! d = Some (ODict items) ->
     dict_get items k = Some (VRef t) ->
     h !! t = Some (ODict titems) ->
     exists h2,
       getitem (S n) (VRef a) k h = Ret (VRef (List.length h)) h2 /\
       stores_view h2 d k (List.length h) (VRef t) base).
  { intros n a k h d base items t titems Ha Hd Hk Ht.
    rewrite (getitem_dict n a k h d base items t titems Ha Hd Hk Ht).
    eexists. split; [reflexivity|].
    destruct (stores_view_after h d k items (VRef t) base Hd) as (items' & Hd' & Hs).
    apply lookup_app_l_Some with (l2 := [OView (VRef t)
      (match base with VNone => VRef t | _ => base end)]) in Hd as Hd2.
    cbn zeta in Hd'. rewrite Hd2 in Hd'. by injection Hd' as <-. }
  split; [exact Hdirect|]. split; [|split].
  - intros n a k h d base items keys t titems h1 Ha Hd Hk Hres Ht.
    destruct (getitem_alias n a k h d base items keys (VRef t) h1 true Ha Hd Hk Hres
                (is_dict_dict _ _ _ Ht)) as (items1 & Hd1 & Hget).
    cbn zeta in *. rewrite Hget. eexists. split; [reflexivity|].
    assert (Hd0 : h1 !! d = Some (ODict items1)).
    { apply lookup_app_Some in Hd1 as [Hd1|[Hge Hd1]]; [done|].
      destruct (d - List.length h1) as [|i] eqn:E; simpl in Hd1; [done|].
      by rewrite lookup_nil in Hd1. }
    destruct (stores_view_after h1 d k items1 (VRef t) base Hd0) as (items' & Hd' & Hs).
    cbn zeta in Hd'. rewrite Hd1 in Hd'. by injection Hd' as <-.
  - intros n a k h d base items alias others target h1 c h2 h3 citems
      Ha Hd Hk Hres Hcopy Hmerge Hc.
    destruct (getitem_pair n a k h d base items alias others target h1 (VRef c) h2 h3
                true Ha Hd Hk Hres Hcopy Hmerge (is_dict_dict _ _ _ Hc))
      as (items3 & Hd3 & Hget).
    cbn zeta in *. rewrite Hget. eexists. split; [reflexivity|].
    assert (Hd0 : h3 !! d = Some (ODict items3)).
    { apply lookup_app_Some in Hd3 as [Hd3|[Hge Hd3]]; [done|].
      destruct (d - List.length h3) as [|i] eqn:E; simpl in Hd3; [done|].
      by rewrite lookup_nil in Hd3. }
    destruct (stores_view_after h3 d k items3 (VRef c) base Hd0) as (items' & Hd' & Hs).
    cbn zeta in Hd'. rewrite Hd3 in Hd'. by injection Hd' as <-.
  - intros n st name a k d base items t titems Hcache Ha Hd Hk Ht.
    destruct (Hdirect n a k (objs st) d base items t titems Ha Hd Hk Ht)
      as (h2 & Hget & Hs).
    exists (with_objs st h2). unfold on_heap. rewrite Hget. done.
Qed.

Lemma getitem_stores_view_witness :
  exists h2,
    getitem 1 (VRef 4) "languages" sample_heap = Ret (VRef 5) h2 /\
    stores_view h2 0 "languages" 5 (VRef 1) (VRef 0).
Proof.
  exact (proj1 getitem_stores_view 0 4 "languages" sample_heap 0 (VRef 0) _ 1 _
           eq_refl eq_refl eq_refl eq_refl).
Defined.

(* ===================================================================== *)
(** ** Regions of plain data *)

Lemma dict_get_elem {K V} `{EqDecision K} (d : pydict K V) k v :
  dict_get d k = Some v -> (k, v) ∈ d.
Proof.
  induction d as [|[k' v'] d IH]; simpl; [done|].
  destruct (decide (k' = k)) as [->|Hne].
  - intros [= ->]. left.
  - intros H. right. by apply IH.
Qed.

Lemma dict_get_None {K V} `{EqDecision K} (d : pydict K V) k :
  dict_get d k = None -> k ∉ map fst d.
Proof.
  induction d as [|[k' v'] d IH]; simpl; [intros _; apply not_elem_of_nil|].
  destruct (decide (k' = k)) as [->|Hne]; [done|].
  intros H. apply not_elem_of_cons. split; [done | by apply IH].
Qed.

Lemma dict_get_NoDup {K V} `{EqDecision K} (d : pydict K V) k v :
  NoDup (map fst d) -> (k, v) ∈ d -> dict_get d k = Some v.
Proof.
  induction d as [|[k' v'] d IH]; simpl; intros Hnd Hin.
  - by apply elem_of_nil in Hin.
  - apply NoDup_cons in Hnd as [Hk' Hnd].
    apply elem_of_cons in Hin as [[= -> ->]|Hin].
    + by rewrite decide_True.
    + rewrite decide_False; [by apply IH|].
      intros ->. apply Hk'. apply list_elem_of_fmap. by exists (k, v).
Qed.

Lemma dict_set_keys_in {K V} `{EqDecision K} (d : pydict K V) k v :
  k ∈ map fst d -> map fst (dict_set d k v) = map fst d.
Proof.
  induction d as [|[k' v'] d IH]; simpl; intros Hin.
  - by apply elem_of_nil in Hin.
  - destruct (decide (k' = k)) as [->|Hne]; simpl; [done|].
    apply elem_of_cons in Hin as [->|Hin]; [done|]. by rewrite IH.
Qed.

Lemma dict_set_keys_notin {K V} `{EqDecision K} (d : pydict K V) k v :
  k ∉ map fst d -> map fst (dict_set d k v) = map fst d ++ [k].
Proof.
  induction d as [|[k' v'] d IH]; simpl; intros Hin; [done|].
  apply not_elem_of_cons in Hin as [Hne Hin].
  rewrite decide_False by done. simpl. by rewrite IH.
Qed.

Lemma dict_set_NoDup {K V} `{EqDecision K} (d : pydict K V) k v :
  NoDup (map fst d) -> NoDup (map fst (dict_set d k v)).
Proof.
  intros Hnd. destruct (decide (k ∈ map fst d)) as [Hin|Hin].
  - by rewrite dict_set_keys_in.
  - rewrite dict_set_keys_notin by done.
    apply NoDup_app. split; [done|]. split; [|apply NoDup_singleton].
    intros x Hx ->%list_elem_of_singleton. done.
Qed.

Lemma dict_set_elem {K V} `{EqDecision K} (d : pydict K V) k v k' v' :
  (k', v') ∈ dict_set d k v -> (k', v') = (k, v) \/ (k', v') ∈ d.
Proof.
  induction d as [|[k0 v0] d IH]; simpl.
  - intros ->%list_elem_of_singleton. by left.
  - destruct (decide (k0 = k)) as [->|Hne].
    + intros [->|H]%elem_of_cons; [by left | right; by right].
    + intros [->|H]%elem_of_cons; [right; left|].
      destruct (IH H) as [->|H']; [by left | right; by right].
Qed.

Lemma val_ok_mono (D O D' O' : addr -> Prop) v :
  (forall a, D a -> D' a) -> (forall a, O a -> O' a) ->
  val_ok D O v -> val_ok D' O' v.
Proof.
  intros HD HO. destruct v as [| | |al [| | | |b]|b]; simpl; auto.
Qed.

Lemma dict_ok_mono h (D O D' O' : addr -> Prop) a :
  (forall a, D a -> D' a) -> (forall a, O a -> O' a) ->
  dict_ok h D O a -> dict_ok h D' O' a.
Proof.
  intros HD HO (items & Ha & Hnd & Hv). exists items. repeat split; [done..|].
  intros k v Hin. eapply val_ok_mono; [exact HD | exact HO | by eapply Hv].
Qed.

Lemma dict_ok_frame h h' (D O : addr -> Prop) a :
  h' !! a = h !! a -> dict_ok h D O a -> dict_ok h' D O a.
Proof. intros E (items & Ha & H). exists items. by rewrite E. Qed.

Lemma dict_ok_lt h (D O : addr -> Prop) a : dict_ok h D O a -> a < List.length h.
Proof. intros (items & Ha & _). by apply lookup_lt_Some in Ha. Qed.

(** Inside a closed set, what a path leads to depends on the objects of
    the set only. *)
Section Stable.
Variables (h h' : heap) (U : addr -> Prop).
Hypothesis HU : closed h U.
Hypothesis Hsame : forall a, U a -> h' !! a = h !! a.

Lemma deep_get_stable v p : val_ok U U v -> deep_get h' v p = deep_get h v p.
Proof.
  revert v. induction p as [|k p IH]; intros v Hv; simpl; [done|].
  assert (Hgo : forall a, U a ->
            match h' !! a with
            | Some (ODict items) =>
                match dict_get items k with
                | Some x => deep_get h' x p
                | None => None
                end
            | _ => None
            end =
            match h !! a with
            | Some (ODict items) =>
                match dict_get items k with
                | Some x => deep_get h x p
                | None => None
                end
            | _ => None
            end).
  { intros a Ha. rewrite (Hsame a Ha).
    destruct (HU a Ha) as (items & -> & _ & Hitems).
    destruct (dict_get items k) as [x|] eqn:Ek; [|done].
    apply IH. apply (Hitems k). by apply dict_get_elem. }
  destruct v as [| | |al [| | | |b]|b]; simpl in Hv; try done; by apply Hgo.
Qed.

Lemma lookup_path_stable v p : val_ok U U v -> lookup_path h' v p = lookup_path h v p.
Proof.
  revert v. induction p as [|k p IH]; intros v Hv; simpl; [done|].
  destruct v as [| | | |b]; try done. simpl in Hv.
  rewrite (Hsame b Hv). destruct (HU b Hv) as (items & -> & _ & Hitems).
  destruct (dict_get items k) as [x|] eqn:Ek; [|done].
  apply IH. apply (Hitems k). by apply dict_get_elem.
Qed.

Lemma untouched_stable v p : val_ok U U v -> untouched h' v p <-> untouched h v p.
Proof.
  revert v. induction p as [|k p IH]; intros v Hv; simpl; [done|].
  destruct v as [| | | |b]; try done. simpl in Hv.
  rewrite (Hsame b Hv). destruct (HU b Hv) as (items & -> & _ & Hitems).
  destruct (dict_get items k) as [x|] eqn:Ek; [|done].
  destruct x as [| | | |b']; try done.
  apply IH. apply (Hitems k). by apply dict_get_elem.
Qed.
End Stable.

Lemma lookup_path_deep_get h v p x :
  lookup_path h v p = Some x -> deep_get h v p = Some x.
Proof.
  revert v. induction p as [|k p IH]; intros v; simpl; [done|].
  destruct v as [| | | |b]; try done.
  destruct (h !! b) as [[items|]|]; try done.
  destruct (dict_get items k); [apply IH | done].
Qed.

(* ===================================================================== *)
(** ** [merge]: one round of the loop *)

Lemma entry_eq h c items k :
  h !! c = Some (ODict items) -> entry h c k = dict_get items k.
Proof. unfold entry. by intros ->. Qed.

Section MergeFrame.
Variables (h : heap) (T S : addr -> Prop) (c s : addr).
Hypothesis Hpre : merge_pre h T S c s.

Lemma T_old a : T a -> a < List.length h /\ a <> c.
Proof.
  intros Ha. split.
  - eapply dict_ok_lt. by apply (pre_T _ _ _ _ _ Hpre).
  - intros ->. by apply (pre_cT _ _ _ _ _ Hpre).
Qed.

Lemma S_old a : S a -> a < List.length h /\ a <> c.
Proof.
  intros Ha. split.
  - eapply dict_ok_lt. by apply (pre_S _ _ _ _ _ Hpre).
  - intros ->. by apply (pre_cS _ _ _ _ _ Hpre).
Qed.

Lemma c_old : c < List.length h.
Proof. eapply dict_ok_lt. apply (pre_c _ _ _ _ _ Hpre). Qed.

Lemma frame_refl : merge_frame h T S c h.
Proof.
  split; [done | done | |].
  - eapply dict_ok_mono; [| |apply (pre_c _ _ _ _ _ Hpre)]; simpl; auto.
  - intros a [? ?]. lia.
Qed.

Lemma frame_closed_T hx : merge_frame h T S c hx -> closed hx T.
Proof.
  intros Hf a Ha. destruct (T_old a Ha).
  eapply dict_ok_frame; [by apply (frame_same _ _ _ _ _ Hf)|].
  by apply (pre_T _ _ _ _ _ Hpre).
Qed.

Lemma frame_closed_S hx : merge_frame h T S c hx -> closed hx S.
Proof.
  intros Hf a Ha. destruct (S_old a Ha).
  eapply dict_ok_frame; [by apply (frame_same _ _ _ _ _ Hf)|].
  by apply (pre_S _ _ _ _ _ Hpre).
Qed.

Lemma frame_alloc hi items :
  merge_frame h T S c hi ->
  NoDup (map fst items) ->
  (forall k v, (k, v) ∈ items ->
     val_ok (fun a => T a \/ fresh h hi a) (fun a => T a \/ fresh h hi a \/ S a) v) ->
  merge_frame h T S c (hi ++ [ODict items]).
Proof.
  intros [Hlen Hsame Hc Hfresh] Hnd Hitems.
  assert (Hmono : forall a, fresh h hi a -> fresh h (hi ++ [ODict items]) a).
  { intros a [? ?]. split; [done|]. rewrite length_app. simpl. lia. }
  split.
  - rewrite length_app. lia.
  - intros a Ha Hne. rewrite lookup_app_l by lia. by apply Hsame.
  - eapply dict_ok_mono; [| |eapply dict_ok_frame; [|exact Hc]].
    + intros a [?|?]; auto.
    + intros a [?|[?|?]]; auto.
    + apply lookup_app_l. by apply dict_ok_lt in Hc.
  - intros a [Hge Hlt]. rewrite length_app in Hlt. simpl in Hlt.
    destruct (decide (a = List.length hi)) as [->|Hne].
    + exists items. split; [by rewrite lookup_app_r, Nat.sub_diag|].
      split; [done|]. intros k v Hin.
      eapply val_ok_mono; [| |by eapply Hitems].
      * intros b [?|?]; auto.
      * intros b [?|[?|?]]; auto.
    + assert (Hf : fresh h hi a) by (split; lia).
      eapply dict_ok_mono; [| |eapply dict_ok_frame; [|exact (Hfresh a Hf)]].
      * intros b [?|?]; auto.
      * intros b [?|[?|?]]; auto.
      * apply lookup_app_l. lia.
Qed.

Lemma frame_assign hi ci k w :
  merge_frame h T S c hi ->
  hi !! c = Some (ODict ci) ->
  val_ok (fun a => T a \/ fresh h hi a) (fun a => T a \/ fresh h hi a \/ S a) w ->
  merge_frame h T S c (<[c := ODict (dict_set ci k w)]> hi).
Proof.
  intros [Hlen Hsame Hc Hfresh] Hci Hw.
  assert (Hfr : forall a, fresh h (<[c := ODict (dict_set ci k w)]> hi) a
                          <-> fresh h hi a).
  { intros a. unfold fresh. by rewrite length_insert. }
  pose proof c_old as Hcold.
  split.
  - by rewrite length_insert.
  - intros a Ha Hne. rewrite list_lookup_insert_ne by done. by apply Hsame.
  - destruct Hc as (ci' & Hci' & Hnd & Hv).
    assert (ci' = ci) as -> by congruence.
    exists (dict_set ci k w). split; [apply list_lookup_insert_eq; lia|].
    split; [by apply dict_set_NoDup|].
    intros k' v' [[= -> ->]|Hin]%dict_set_elem.
    + eapply val_ok_mono; [| |exact Hw]; intros a; rewrite Hfr; auto.
    + eapply val_ok_mono; [| |by eapply Hv]; intros a; rewrite Hfr; auto.
  - intros a Ha. apply Hfr in Ha as Ha'.
    assert (a <> c) by (destruct Ha'; lia).
    eapply dict_ok_mono; [| |eapply dict_ok_frame; [|exact (Hfresh a Ha')]].
    + intros b. by rewrite Hfr.
    + intros b. by rewrite Hfr.
    + by apply list_lookup_insert_ne.
Qed.

Lemma frame_compose h1 c2 h2 :
  merge_frame h T S c h1 ->
  fresh h h1 c2 ->
  merge_frame h1 T S c2 h2 ->
  merge_frame h T S c h2.
Proof.
  intros [Hlen Hsame Hc Hfresh] [Hge Hlt] [Hlen2 Hsame2 Hc2 Hfresh2].
  pose proof c_old as Hcold.
  assert (Hmono : forall a, fresh h h1 a -> fresh h h2 a)
    by (intros a [? ?]; split; lia).
  assert (Hmono2 : forall a, fresh h1 h2 a -> fresh h h2 a)
    by (intros a [? ?]; split; lia).
  split.
  - lia.
  - intros a Ha Hne. rewrite Hsame2 by lia. by apply Hsame.
  - eapply dict_ok_mono; [| |eapply dict_ok_frame; [|exact Hc]].
    + intros a [?|?]; auto.
    + intros a [?|[?|?]]; auto.
    + apply Hsame2; lia.
  - intros a [Hage Halt].
    destruct (decide (a = c2)) as [->|Hne].
    + eapply dict_ok_mono; [| |exact Hc2].
      * intros b [?|?]; auto.
      * intros b [?|[?|?]]; auto.
    + destruct (decide (a < List.length h1)) as [Hl|Hl].
      * assert (Hf : fresh h h1 a) by (split; lia).
        eapply dict_ok_mono; [| |eapply dict_ok_frame; [|exact (Hfresh a Hf)]].
        -- intros b [?|?]; auto.
        -- intros b [?|[?|?]]; auto.
        -- by apply Hsame2.
      * assert (Hf : fresh h1 h2 a) by (split; lia).
        eapply dict_ok_mono; [| |exact (Hfresh2 a Hf)].
        -- intros b [?|?]; auto.
        -- intros b [?|[?|?]]; auto.
Qed.
End MergeFrame.

Lemma deep_get_pair h al a p :
  p <> [] -> deep_get h (VTuple al (VRef a)) p = deep_get h (VRef a) p.
Proof. by destruct p. Qed.

Section MergeItem.
Variable rec : funs.
Hypothesis Hrec : merge_ok rec.
Variables (h : heap) (T S : addr -> Prop) (c s : addr).
Hypothesis Hpre : merge_pre h T S c s.

(** Everything the merged data can refer to. *)
Let U (hx : heap) : addr -> Prop := fun a => T a \/ fresh h hx a \/ S a.

Lemma U_closed hx : merge_frame h T S c hx -> closed hx (U hx).
Proof.
  intros Hf a [Ha|[Ha|Ha]].
  - eapply dict_ok_mono; [| |by apply (frame_closed_T h T S c s Hpre hx Hf)];
      unfold U; auto.
  - eapply dict_ok_mono; [| |by apply (frame_fresh _ _ _ _ _ Hf)]; unfold U.
    + intros b [?|?]; auto.
    + intros b [?|[?|?]]; auto.
  - eapply dict_ok_mono; [| |by apply (frame_closed_S h T S c s Hpre hx Hf)];
      unfold U; auto.
Qed.

Lemma U_old hx a : U hx a -> a < List.length hx -> a <> c.
Proof.
  pose proof (c_old h T S c s Hpre).
  intros [Ha|[[? ?]|Ha]] _.
  - by apply (T_old h T S c s Hpre).
  - lia.
  - by apply (S_old h T S c s Hpre).
Qed.

Lemma U_lt hx a : merge_frame h T S c hx -> U hx a -> a < List.length hx.
Proof. intros Hf Ha. eapply dict_ok_lt. by apply (U_closed hx Hf). Qed.

(** Later rounds write the target only, so what a value of the merged data
    leads to does not change any more. *)
Lemma deep_get_later hx hy v p :
  merge_frame h T S c hx ->
  (forall a, a < List.length hx -> a <> c -> hy !! a = hx !! a) ->
  val_ok (U hx) (U hx) v ->
  deep_get hy v p = deep_get hx v p.
Proof.
  intros Hf Hsame Hv. apply (deep_get_stable hx hy (U hx)); [by apply U_closed| |done].
  intros a Ha. pose proof (U_lt hx a Hf Ha). apply Hsame; [done|].
  by apply (U_old hx).
Qed.

Lemma merge_into_copy hj ci oi s2 h2 k w :
  merge_frame h T S c hj ->
  hj !! c = Some (ODict ci) ->
  NoDup (map fst oi) ->
  (forall k v, (k, v) ∈ oi -> val_ok T T v) ->
  S s2 ->
  f_merge rec (VRef (List.length hj)) (VRef s2) (hj ++ [ODict oi]) = Ret tt h2 ->
  (w = VRef (List.length hj) \/ exists al, w = VTuple al (VRef (List.length hj))) ->
  let h3 := <[c := ODict (dict_set ci k w)]> h2 in
  h2 !! c = Some (ODict ci) /\
  merge_frame h T S c h3 /\
  (forall a, a < List.length hj -> a <> c -> h3 !! a = hj !! a) /\
  h3 !! c = Some (ODict (dict_set ci k w)) /\
  (forall p x, lookup_path h (VRef s2) p = Some x -> leaf x ->
               deep_get h3 w p = Some x) /\
  (forall p x, deep_get (hj ++ [ODict oi]) (VRef (List.length hj)) p = Some x ->
               untouched h (VRef s2) p ->
               deep_get h3 w p = Some x).
Proof.
  intros Hf Hci Hnd Hoi Hs2 Hmerge Hw h3.
  set (c2 := List.length hj) in *. set (h1 := hj ++ [ODict oi]) in *.
  pose proof (c_old h T S c s Hpre) as Hcold.
  pose proof (frame_len _ _ _ _ _ Hf) as Hlen.
  assert (Hf1 : merge_frame h T S c h1).
  { apply frame_alloc; [done..|].
    intros k' v' Hin. eapply val_ok_mono; [| |by eapply Hoi]; auto. }
  assert (Hc2 : h1 !! c2 = Some (ODict oi))
    by (subst h1 c2; by rewrite lookup_app_r, Nat.sub_diag).
  assert (Hpre1 : merge_pre h1 T S c2 s2).
  { split.
    - by apply (frame_closed_T h T S c s Hpre).
    - by apply (frame_closed_S h T S c s Hpre).
    - by exists oi.
    - intros Ht. apply (T_old h T S c s Hpre) in Ht. subst c2. lia.
    - intros Ht. apply (S_old h T S c s Hpre) in Ht. subst c2. lia.
    - done. }
  destruct (Hrec h1 T S c2 s2 h2 Hpre1 Hmerge) as [Hf2 Hwin Hkeep].
  assert (Hfresh2 : fresh h h1 c2).
  { subst c2 h1. split; [done|]. rewrite length_app. simpl. lia. }
  assert (Hfh2 : merge_frame h T S c h2)
    by (by apply (frame_compose h T S c s Hpre h1 c2)).
  pose proof (frame_len _ _ _ _ _ Hf2) as Hlen2.
  assert (Hlen1 : List.length h1 = Datatypes.S c2)
    by (subst h1 c2; rewrite length_app; simpl; lia).
  assert (Hc_h2 : h2 !! c = Some (ODict ci)).
  { rewrite (frame_same _ _ _ _ _ Hf2) by lia.
    subst h1. by rewrite lookup_app_l by lia. }
  assert (Hwok : val_ok (fun a => T a \/ fresh h h2 a)
                        (fun a => T a \/ fresh h h2 a \/ S a) w).
  { assert (fresh h h2 c2) by (split; lia).
    destruct Hw as [->|[al ->]]; simpl; auto. }
  assert (Hsame3 : forall a, a < List.length h2 -> a <> c -> h3 !! a = h2 !! a).
  { intros a _ Hne. subst h3. by rewrite list_lookup_insert_ne. }
  assert (Hdeep : forall p, p <> [] -> deep_get h3 w p = deep_get h2 (VRef c2) p).
  { intros p Hp.
    assert (deep_get h3 w p = deep_get h3 (VRef c2) p) as ->.
    { destruct Hw as [->|[al ->]]; [done | by apply deep_get_pair]. }
    apply deep_get_later; [done..|]. simpl. right. left. split; lia. }
  split; [done|].
  split; [by apply (frame_assign h T S c s Hpre)|].
  split.
  { intros a Ha Hne. rewrite Hsame3; [|lia|done].
    rewrite (frame_same _ _ _ _ _ Hf2) by lia.
    subst h1. by rewrite lookup_app_l by lia. }
  split.
  { subst h3. apply list_lookup_insert_eq. by apply lookup_lt_Some in Hc_h2. }
  assert (HS1 : forall a, S a -> h1 !! a = h !! a).
  { intros a Ha. apply (S_old h T S c s Hpre) in Ha as [? ?].
    by apply (frame_same _ _ _ _ _ Hf1). }
  split.
  - intros p x Hp Hx.
    assert (p <> []) by (intros ->; injection Hp as <-; done).
    rewrite Hdeep by done. apply Hwin; [|done].
    rewrite <- Hp.
    apply (lookup_path_stable h h1 S); [apply (pre_S _ _ _ _ _ Hpre) | done | done].
  - intros p x Hp Hun.
    assert (p <> []) by (intros ->; done).
    rewrite Hdeep by done. apply Hkeep; [done|].
    apply (untouched_stable h h1 S); [apply (pre_S _ _ _ _ _ Hpre) | done | done | done].
Qed.
Lemma mapping_get_dict hx d items k :
  hx !! d = Some (ODict items) ->
  mapping_get rec (VRef d) k hx = Ret (default VNone (dict_get items k)) hx.
Proof. intros Hd. unfold mapping_get, bind, lookup_obj. by rewrite Hd. Qed.

Lemma copy_value_dict hx d items :
  hx !! d = Some (ODict items) ->
  copy_value rec (VRef d) hx = Ret (VRef (List.length hx)) (hx ++ [ODict items]).
Proof. intros Hd. unfold copy_value, bind, lookup_obj. by rewrite Hd. Qed.

(** The copy of a dict of [T] leads where the dict led. *)
Lemma copy_deep_get hj o oi p :
  merge_frame h T S c hj ->
  T o -> h !! o = Some (ODict oi) -> p <> [] ->
  deep_get (hj ++ [ODict oi]) (VRef (List.length hj)) p = deep_get h (VRef o) p.
Proof.
  intros Hf Ho Hoi Hp. destruct p as [|k p]; [done|]. simpl.
  rewrite lookup_app_r, Nat.sub_diag, Hoi by done. simpl.
  destruct (dict_get oi k) as [x|] eqn:Ek; [|done].
  apply (deep_get_stable h _ T); [apply (pre_T _ _ _ _ _ Hpre)| |].
  - intros a Ha. destruct (T_old h T S c s Hpre a Ha).
    rewrite lookup_app_l by (pose proof (frame_len _ _ _ _ _ Hf); lia).
    by apply (frame_same _ _ _ _ _ Hf).
  - destruct (pre_T _ _ _ _ _ Hpre o Ho) as (oi' & Hoi' & _ & Hv).
    assert (oi' = oi) as -> by congruence.
    apply (Hv k). by apply dict_get_elem.
Qed.

(** A leaf of the source is stored in the target as it is. *)
Lemma merge_item_leaf k v2 hi hi' :
  merge_frame h T S c hi ->
  val_ok S S v2 -> leaf v2 ->
  merge_item rec (VRef c) (k, v2) hi = Ret tt hi' ->
  exists ci, hi !! c = Some (ODict ci) /\
             hi' = <[c := ODict (dict_set ci k v2)]> hi /\
             merge_frame h T S c hi'.
Proof.
  intros Hf Hv2 Hleaf H.
  destruct (frame_c _ _ _ _ _ Hf) as (ci & Hci & _).
  exists ci. split; [done|].
  assert (Hdict : is_dict v2 hi = Ret false hi) by by destruct v2.
  assert (hi' = <[c := ODict (dict_set ci k v2)]> hi) as ->.
  { destruct v2; try done; unfold merge_item in H;
      rewrite (bind_eq_Ret _ _ _ _ _ (mapping_get_dict _ _ _ k Hci)) in H;
      rewrite (bind_eq_Ret _ _ _ _ _ Hdict) in H;
      unfold bind at 1, ret at 1 in H;
      rewrite (assign_dict _ _ _ _ _ _ Hci) in H; by injection H as <-. }
  split; [done|].
  apply (frame_assign h T S c s Hpre); [done..|].
  destruct v2 as [| | |al [| | | |b]|]; simpl in *; try done; auto.
Qed.
Lemma merge_item_dict k s2 hi hi' :
  merge_frame h T S c hi ->
  entry hi c k = entry h c k ->
  S s2 ->
  merge_item rec (VRef c) (k, VRef s2) hi = Ret tt hi' ->
  exists ci w,
    hi !! c = Some (ODict ci) /\
    hi' !! c = Some (ODict (dict_set ci k w)) /\
    merge_frame h T S c hi' /\
    (forall a, a < List.length hi -> a <> c -> hi' !! a = hi !! a) /\
    (forall p x, lookup_path h (VRef s2) p = Some x -> leaf x ->
                 deep_get hi' w p = Some x) /\
    (forall old p x, entry h c k = Some old ->
                     deep_get h old p = Some x -> untouched h (VRef s2) p ->
                     deep_get hi' w p = Some x).
Proof.
  intros Hf Hentry Hs2 H.
  destruct (frame_c _ _ _ _ _ Hf) as (ci & Hci & _).
  destruct (frame_closed_S h T S c s Hpre hi Hf s2 Hs2) as (si & Hsi & _).
  destruct (pre_c _ _ _ _ _ Hpre) as (ci0 & Hci0 & _ & Hv0).
  rewrite (entry_eq _ _ _ _ Hci), (entry_eq _ _ _ _ Hci0) in Hentry.
  exists ci.
  unfold merge_item in H.
  rewrite (bind_eq_Ret _ _ _ _ _ (mapping_get_dict _ _ _ k Hci)) in H.
  rewrite (bind_eq_Ret _ _ _ _ _ (is_dict_dict _ _ _ Hsi)) in H.
  apply bind_Ret in H as (w & h2' & Hcomp & Hassign).
  exists w. split; [done|].
  pose proof (frame_len _ _ _ _ _ Hf) as Hlen.
  (* the three ways in which a copy is merged and stored *)
  assert (Hcopy : forall hj o oi,
    merge_frame h T S c hj ->
    hj !! c = Some (ODict ci) ->
    (forall a, a < List.length hi -> hj !! a = hi !! a) ->
    List.length hi <= List.length hj ->
    hj !! o = Some (ODict oi) ->
    NoDup (map fst oi) ->
    (forall k v, (k, v) ∈ oi -> val_ok T T v) ->
    (w = VRef (List.length hj) \/ exists al, w = VTuple al (VRef (List.length hj))) ->
    f_merge rec (VRef (List.length hj)) (VRef s2) (hj ++ [ODict oi]) = Ret tt h2' ->
    hi' !! c = Some (ODict (dict_set ci k w)) /\
    merge_frame h T S c hi' /\
    (forall a, a < List.length hi -> a <> c -> hi' !! a = hi !! a) /\
    (forall p x, lookup_path h (VRef s2) p = Some x -> leaf x ->
                 deep_get hi' w p = Some x) /\
    (forall p x, deep_get (hj ++ [ODict oi]) (VRef (List.length hj)) p = Some x ->
                 untouched h (VRef s2) p -> deep_get hi' w p = Some x)).
  { intros hj o oi Hfj Hcj Hji Hlj Ho Hnd Hoi Hw Hmerge.
    destruct (merge_into_copy hj ci oi s2 h2' k w Hfj Hcj Hnd Hoi Hs2 Hmerge Hw)
      as (Hc2 & Hf3 & Hsame & Hc3 & Hwin & Hkeep).
    rewrite (assign_dict _ _ _ _ _ _ Hc2) in Hassign. injection Hassign as <-.
    split; [done|]. split; [done|]. split; [|by split].
    intros a Ha Hne. rewrite Hsame by (done || lia). by apply Hji. }
  destruct (dict_get ci k) as [old|] eqn:Ek.
  2: { (* no entry: an empty dict is made, copied and merged into *)
    simpl in Hcomp. unfold bind at 1, alloc at 1 in Hcomp. cbn iota in Hcomp.
    set (hj := hi ++ [ODict []]) in *.
    assert (Hej : hj !! List.length hi = Some (ODict []))
      by (subst hj; by rewrite lookup_app_r, Nat.sub_diag).
    rewrite (bind_eq_Ret _ _ _ _ _ (copy_value_dict _ _ _ Hej)) in Hcomp.
    apply bind_Ret in Hcomp as ([] & h2 & Hmerge & Hret).
    injection Hret as <- <-.
    assert (Hfj : merge_frame h T S c hj).
    { apply frame_alloc; [done | apply NoDup_nil_2 |].
      intros ? ? Hin. by apply elem_of_nil in Hin. }
    destruct (Hcopy hj (List.length hi) []) as (? & ? & ? & ? & Hkeep); try done.
    - subst hj. apply lookup_app_l_Some. done.
    - intros a Ha. subst hj. by rewrite lookup_app_l.
    - subst hj. rewrite length_app. lia.
    - apply NoDup_nil_2.
    - intros ? ? Hin. by apply elem_of_nil in Hin.
    - by left.
    - do 4 (split; [done|]).
      intros old p x Hold. rewrite (entry_eq _ _ _ _ Hci0) in Hold. congruence. }
  assert (Hold : val_ok T T old).
  { apply (Hv0 k). apply dict_get_elem. by rewrite <- Hentry. }
  assert (Hentry0 : entry h c k = Some old)
    by (by rewrite (entry_eq _ _ _ _ Hci0), <- Hentry).
  assert (HT : forall o, T o -> exists oi,
             hi !! o = Some (ODict oi) /\ h !! o = Some (ODict oi) /\
             NoDup (map fst oi) /\ forall k v, (k, v) ∈ oi -> val_ok T T v).
  { intros o Ho. destruct (pre_T _ _ _ _ _ Hpre o Ho) as (oi & Hoi & Hnd & Hv).
    exists oi. split; [|done].
    destruct (T_old h T S c s Hpre o Ho). by rewrite (frame_same _ _ _ _ _ Hf). }
  destruct old as [|sc|al|al ov|t]; simpl in Hcomp.
  - (* None: as for a missing entry *)
    unfold bind at 1, alloc at 1 in Hcomp. cbn iota in Hcomp.
    set (hj := hi ++ [ODict []]) in *.
    assert (Hej : hj !! List.length hi = Some (ODict []))
      by (subst hj; by rewrite lookup_app_r, Nat.sub_diag).
    rewrite (bind_eq_Ret _ _ _ _ _ (copy_value_dict _ _ _ Hej)) in Hcomp.
    apply bind_Ret in Hcomp as ([] & h2 & Hmerge & Hret).
    injection Hret as <- <-.
    assert (Hfj : merge_frame h T S c hj).
    { apply frame_alloc; [done | apply NoDup_nil_2 |].
      intros ? ? Hin. by apply elem_of_nil in Hin. }
    destruct (Hcopy hj (List.length hi) []) as (? & ? & ? & ? & Hkeep); try done.
    + subst hj. apply lookup_app_l_Some. done.
    + intros a Ha. subst hj. by rewrite lookup_app_l.
    + subst hj. rewrite length_app. lia.
    + apply NoDup_nil_2.
    + intros ? ? Hin. by apply elem_of_nil in Hin.
    + by left.
    + do 4 (split; [done|]).
      intros old p x Hold'. rewrite Hentry0 in Hold'. injection Hold' as <-.
      by destruct p.
  - (* a scalar has no copy() *)
    done.
  - (* an alias: it is paired with the dict of the source itself *)
    unfold bind at 1, ret at 1 in Hcomp. cbn iota in Hcomp.
    injection Hcomp as <- <-.
    rewrite (assign_dict _ _ _ _ _ _ Hci) in Hassign. injection Hassign as <-.
    pose proof (lookup_lt_Some _ _ _ Hci) as Hclt.
    assert (Hsame : forall a, a < List.length hi -> a <> c ->
              <[c := ODict (dict_set ci k (VTuple al (VRef s2)))]> hi !! a = hi !! a)
      by (intros a _ Hne; by rewrite list_lookup_insert_ne).
    split; [by apply list_lookup_insert_eq|].
    split; [apply (frame_assign h T S c s Hpre); simpl; auto|].
    split; [done|]. split.
    + intros p x Hp Hx.
      assert (p <> []) by (intros ->; injection Hp as <-; done).
      rewrite deep_get_pair by done.
      rewrite (deep_get_stable h _ S); [by apply lookup_path_deep_get | | | done].
      * apply (pre_S _ _ _ _ _ Hpre).
      * intros a Ha. destruct (S_old h T S c s Hpre a Ha).
        rewrite Hsame by (done || lia). by apply (frame_same _ _ _ _ _ Hf).
    + intros old p x Hold'. rewrite Hentry0 in Hold'. injection Hold' as <-.
      by destruct p.
  - (* a pair: its overlay is copied and merged into *)
    destruct ov as [| | | |o]; try done. simpl in Hold.
    destruct (HT o Hold) as (oi & Hoi & Hoi0 & Hnd & Hv).
    unfold bind at 1, ret at 1 in Hcomp. cbn iota in Hcomp.
    rewrite (bind_eq_Ret _ _ _ _ _ (copy_value_dict _ _ _ Hoi)) in Hcomp.
    apply bind_Ret in Hcomp as ([] & h2 & Hmerge & Hret).
    injection Hret as <- <-.
    destruct (Hcopy hi o oi) as (? & ? & ? & ? & Hkeep); try done; [by eauto|].
    do 4 (split; [done|]).
    intros old p x Hold'. rewrite Hentry0 in Hold'. injection Hold' as <-.
    intros Hp Hun. assert (p <> []) by (intros ->; done).
    apply Hkeep; [|done].
    rewrite (copy_deep_get hi o oi p) by done.
    by rewrite <- (deep_get_pair h al o p).
  - (* a dict: it is copied and merged into *)
    simpl in Hold.
    destruct (HT t Hold) as (oi & Hoi & Hoi0 & Hnd & Hv).
    unfold bind at 1, ret at 1 in Hcomp. cbn iota in Hcomp.
    rewrite (bind_eq_Ret _ _ _ _ _ (copy_value_dict _ _ _ Hoi)) in Hcomp.
    apply bind_Ret in Hcomp as ([] & h2 & Hmerge & Hret).
    injection Hret as <- <-.
    destruct (Hcopy hi t oi) as (? & ? & ? & ? & Hkeep); try done; [by left|].
    do 4 (split; [done|]).
    intros old p x Hold'. rewrite Hentry0 in Hold'. injection Hold' as <-.
    intros Hp Hun. assert (p <> []) by (intros ->; done).
    apply Hkeep; [|done].
    by rewrite (copy_deep_get hi t oi p).
Qed.
Lemma merge_item_step k v2 hi hi' :
  merge_frame h T S c hi ->
  entry hi c k = entry h c k ->
  val_ok S S v2 ->
  merge_item rec (VRef c) (k, v2) hi = Ret tt hi' ->
  merge_frame h T S c hi' /\
  (forall a, a < List.length hi -> a <> c -> hi' !! a = hi !! a) /\
  (forall k', k' <> k -> entry hi' c k' = entry hi c k') /\
  item_post h c k v2 hi'.
Proof.
  intros Hf Hentry Hv2 H.
  destruct v2 as [|sc|al|al ov|s2].
  - injection H as <-. do 3 (split; [done|]). done.
  - destruct (merge_item_leaf k _ hi hi' Hf Hv2 I H) as (ci & Hci & -> & Hf').
    pose proof (lookup_lt_Some _ _ _ Hci).
    split; [done|]. split; [intros a _ Hne; by rewrite list_lookup_insert_ne|].
    unfold item_post, entry. rewrite list_lookup_insert_eq, Hci by done.
    split; [|apply dict_get_set_eq].
    intros k' Hne. by apply dict_get_set_ne.
  - destruct (merge_item_leaf k _ hi hi' Hf Hv2 I H) as (ci & Hci & -> & Hf').
    pose proof (lookup_lt_Some _ _ _ Hci).
    split; [done|]. split; [intros a _ Hne; by rewrite list_lookup_insert_ne|].
    unfold item_post, entry. rewrite list_lookup_insert_eq, Hci by done.
    split; [|apply dict_get_set_eq].
    intros k' Hne. by apply dict_get_set_ne.
  - destruct (merge_item_leaf k _ hi hi' Hf Hv2 I H) as (ci & Hci & -> & Hf').
    pose proof (lookup_lt_Some _ _ _ Hci).
    split; [done|]. split; [intros a _ Hne; by rewrite list_lookup_insert_ne|].
    unfold item_post, entry. rewrite list_lookup_insert_eq, Hci by done.
    split; [|apply dict_get_set_eq].
    intros k' Hne. by apply dict_get_set_ne.
  - destruct (merge_item_dict k s2 hi hi' Hf Hentry Hv2 H)
      as (ci & w & Hci & Hci' & Hf' & Hsame & Hwin & Hkeep).
    split; [done|]. split; [done|]. split.
    + intros k' Hne. unfold entry. rewrite Hci, Hci'. by apply dict_get_set_ne.
    + exists w. split; [|by split].
      unfold entry. rewrite Hci'. apply dict_get_set_eq.
Qed.

(** What a round has made of an entry stays, in the rounds after it. *)
Lemma item_post_later k v2 hi h' :
  merge_frame h T S c hi ->
  (forall a, a < List.length hi -> a <> c -> h' !! a = hi !! a) ->
  entry h' c k = entry hi c k ->
  item_post h c k v2 hi -> item_post h c k v2 h'.
Proof.
  intros Hf Hsame Hentry Hpost.
  destruct v2 as [|sc|al|al ov|s2]; simpl in *; try congruence.
  destruct Hpost as (w & Hw & Hwin & Hkeep).
  exists w. split; [congruence|].
  assert (Hwok : val_ok (U hi) (U hi) w).
  { destruct (frame_c _ _ _ _ _ Hf) as (ci & Hci & _ & Hv).
    rewrite (entry_eq _ _ _ _ Hci) in Hw.
    eapply val_ok_mono; [| |apply (Hv k); by apply dict_get_elem]; unfold U.
    - intros a [?|?]; auto.
    - intros a [?|[?|?]]; auto. }
  split.
  - intros p x Hp Hx. rewrite (deep_get_later hi h') by done. by apply Hwin.
  - intros old p x Hold Hp Hun. rewrite (deep_get_later hi h') by done.
    by eapply Hkeep.
Qed.

Lemma merge_loop rest : forall hi h',
  merge_frame h T S c hi ->
  NoDup (map fst rest) ->
  (forall k v, (k, v) ∈ rest -> val_ok S S v) ->
  (forall k, k ∈ map fst rest -> entry hi c k = entry h c k) ->
  for_each (merge_item rec (VRef c)) rest hi = Ret tt h' ->
  merge_frame h T S c h' /\
  (forall a, a < List.length hi -> a <> c -> h' !! a = hi !! a) /\
  (forall k, k ∉ map fst rest -> entry h' c k = entry hi c k) /\
  (forall k v2, (k, v2) ∈ rest -> item_post h c k v2 h').
Proof.
  induction rest as [|[k0 v0] rest IH]; intros hi h' Hf Hnd Hv Hentry H.
  - injection H as <-. do 3 (split; [done|]).
    intros k v2 Hin. by apply elem_of_nil in Hin.
  - simpl in H. apply bind_Ret in H as ([] & hi1 & Hstep & Hrest).
    simpl in Hnd. apply NoDup_cons in Hnd as [Hk0 Hnd].
    destruct (merge_item_step k0 v0 hi hi1 Hf) as (Hf1 & Hsame1 & Hother1 & Hpost1);
      [apply Hentry; left | apply (Hv k0); left | done |].
    destruct (IH hi1 h' Hf1 Hnd) as (Hf' & Hsame' & Hother' & Hpost'); [| |done|].
    { intros k v Hin. apply (Hv k). by right. }
    { intros k Hin. rewrite Hother1; [apply Hentry; by right|].
      intros ->. done. }
    pose proof (frame_len _ _ _ _ _ Hf1) as Hlen1.
    assert (Hlen01 : List.length hi <= List.length hi1).
    { destruct (decide (List.length hi <= List.length hi1)); [done|].
      exfalso. pose proof (c_old h T S c s Hpre).
      pose proof (frame_len _ _ _ _ _ Hf). 
      destruct (frame_c _ _ _ _ _ Hf1) as (ci & Hci & _).
      apply lookup_lt_Some in Hci.
      (* the length never decreases: compare at the last address of [hi] *)
      assert (Hlast : List.length hi - 1 < List.length hi) by lia.
      destruct (decide (List.length hi - 1 = c)) as [E|E]; [lia|].
      pose proof (Hsame1 _ Hlast E) as Hl.
      destruct (lookup_lt_is_Some_2 hi _ Hlast) as [o Ho].
      rewrite Ho in Hl. apply lookup_lt_Some in Hl. lia. }
    split; [done|]. split.
    { intros a Ha Hne. rewrite Hsame' by (done || lia). by apply Hsame1. }
    split.
    { intros k Hk. apply not_elem_of_cons in Hk as [Hne Hk].
      rewrite Hother' by done. by apply Hother1. }
    intros k v2 [[= -> ->]|Hin]%elem_of_cons; [|by apply Hpost'].
    apply (item_post_later k0 v0 hi1 h'); [done | done | by apply Hother' | done].
Qed.
End MergeItem.

Lemma deep_get_entry h c k p :
  deep_get h (VRef c) (k :: p)
  = match entry h c k with Some x => deep_get h x p | None => None end.
Proof. unfold entry. simpl. by destruct (h !! c) as [[items|]|]. Qed.

(** ** [merge] on plain data *)

Lemma merge_ok_step rec : merge_ok rec -> merge_ok (step rec).
Proof.
  intros Hrec h T S c s h' Hpre H. simpl in H. unfold merge_body in H.
  destruct (pre_S _ _ _ _ _ Hpre s (pre_s _ _ _ _ _ Hpre)) as (sitems & Hs & Hnd & Hv).
  assert (Hitems : mapping_items rec (VRef s) h = Ret sitems h).
  { unfold mapping_items, bind, lookup_obj. by rewrite Hs. }
  rewrite (bind_eq_Ret _ _ _ _ _ Hitems) in H.
  destruct (merge_loop rec Hrec h T S c s Hpre sitems h h')
    as (Hf & Hsame & Hother & Hpost); try done.
  { by apply (frame_refl h T S c s). }
  split; [done| |].
  - intros [|k p] x Hp Hx; [by injection Hp as <-|].
    simpl in Hp. rewrite Hs in Hp.
    destruct (dict_get sitems k) as [v2|] eqn:Ek; [|done].
    specialize (Hpost k v2 (dict_get_elem _ _ _ Ek)).
    rewrite deep_get_entry.
    destruct v2 as [|sc|al|al ov|s2]; simpl in Hpost.
    + destruct p; simpl in Hp; [injection Hp as <-; done | done].
    + rewrite Hpost. by destruct p.
    + rewrite Hpost. by destruct p.
    + rewrite Hpost. by destruct p.
    + destruct Hpost as (w & -> & Hwin & _). by apply Hwin.
  - intros [|k p] x Hp Hun; [done|].
    rewrite deep_get_entry in Hp |- *. simpl in Hun. rewrite Hs in Hun.
    destruct (entry h c k) as [old|] eqn:Eold; [|done].
    assert (Hstay : entry h' c k = entry h c k -> 
                    match entry h' c k with
                    | Some x0 => deep_get h' x0 p
                    | None => None
                    end = Some x).
    { intros ->. rewrite Eold. rewrite <- Hp.
      destruct (pre_c _ _ _ _ _ Hpre) as (ci & Hci & _ & Hvc).
      rewrite (entry_eq _ _ _ _ Hci) in Eold.
      apply (deep_get_stable h h' T); [apply (pre_T _ _ _ _ _ Hpre)| |].
      - intros a Ha. destruct (T_old h T S c s Hpre a Ha).
        by apply (frame_same _ _ _ _ _ Hf).
      - apply (Hvc k). by apply dict_get_elem. }
    destruct (dict_get sitems k) as [v2|] eqn:Ek.
    + specialize (Hpost k v2 (dict_get_elem _ _ _ Ek)).
      destruct v2 as [|sc|al|al ov|s2]; simpl in Hpost; try done.
      * by apply Hstay.
      * destruct Hpost as (w & -> & _ & Hkeep). by eapply Hkeep.
    + apply Hstay. apply Hother. by apply dict_get_None.
Qed.

(** [merge], with any recursion budget, on plain data. *)
Lemma merge_plain n : merge_ok (interp n).
Proof.
  induction n as [|n IH]; [|by apply merge_ok_step].
  intros h T S c s h' _ H. done.
Qed.

(* ===================================================================== *)
(** ** C5: what [merge] writes and what it shares *)

Lemma nested_plain_region h T S c s h' a b :
  merge_pre h T S c s ->
  merge_frame h T S c h' ->
  nested_plain h' a b ->
  a = c \/ T a \/ fresh h h' a ->
  T b \/ fresh h h' b.
Proof.
  intros Hpre Hf Hn. induction Hn as [a items k b Ha Hin|a b d _ IH1 _ IH2];
    intros Hstart.
  - assert (Hok : dict_ok h' (fun a => T a \/ fresh h h' a)
                             (fun a => T a \/ fresh h h' a \/ S a) a).
    { destruct Hstart as [->|[Ht|Hfr]].
      - apply (frame_c _ _ _ _ _ Hf).
      - eapply dict_ok_mono;
          [| |by apply (frame_closed_T h T S c s Hpre h' Hf)]; auto.
      - by apply (frame_fresh _ _ _ _ _ Hf). }
    destruct Hok as (items' & Ha' & _ & Hv).
    assert (items' = items) as -> by congruence.
    exact (Hv k (VRef b) Hin).
  - apply IH2. right. by apply IH1.
Qed.


(** Closing [dict_ok] on a concrete heap. *)
Ltac solve_dict_ok :=
  eexists; split; [reflexivity|]; split;
  [ apply (bool_decide_unpack _); vm_compute; exact I
  | intros ?k ?v Hin_items;
    repeat (apply elem_of_cons in Hin_items as [Hin_items|Hin_items];
            [injection Hin_items as -> ->; simpl; auto|]);
    try (by apply elem_of_nil in Hin_items) ].

Lemma merge_heap_pre :
  merge_pre merge_heap (fun a => a = 0) (fun a => a = 1 \/ a = 2 \/ a = 4) 3 4.
Proof.
  split.
  - intros a ->. solve_dict_ok.
  - intros a [-> | [-> | ->]]; solve_dict_ok.
  - solve_dict_ok.
  - lia.
  - lia.
  - auto.
Qed.



(* ===================================================================== *)
(** ** C4: a partial-alias pair read through a view *)

Lemma closed_app h (U : addr -> Prop) o : closed h U -> closed (h ++ [o]) U.
Proof.
  intros HU a Ha. specialize (HU a Ha).
  eapply dict_ok_frame; [|exact HU]. apply lookup_app_l. by eapply dict_ok_lt.
Qed.

Lemma deep_get_copy h (T : addr -> Prop) t titems p :
  closed h T -> T t -> h !! t = Some (ODict titems) -> p <> [] ->
  deep_get (h ++ [ODict titems]) (VRef (List.length h)) p = deep_get h (VRef t) p.
Proof.
  intros HT Ht Htt Hp. destruct p as [|k p]; [done|]. simpl.
  rewrite lookup_app_r, Nat.sub_diag, Htt by done. simpl.
  destruct (dict_get titems k) as [x|] eqn:Ek; [|done].
  apply (deep_get_stable h _ T); [done| |].
  - intros a Ha. apply lookup_app_l. eapply dict_ok_lt. by apply HT.
  - destruct (HT t Ht) as (items & Hi & _ & Hv).
    assert (items = titems) as -> by congruence.
    apply (Hv k). by apply dict_get_elem.
Qed.



(* ===================================================================== *)
(** ** Unpickling *)

Lemma raw_ind' (P : raw -> Prop) :
  P RNone ->
  (forall s, P (RScalar s)) ->
  (forall keys, P (RAlias keys)) ->
  (forall items, Forall (fun kr => P (snd kr)) items -> P (RDict items)) ->
  forall r, P r.
Proof.
  intros HN HS HA HD.
  fix IH 1. intros [| s | keys | items]; [done | done | done |].
  apply HD. induction items as [|[k r] items IHi]; constructor; [apply IH | done].
Qed.

Lemma good_mono h1 h2 (R R' : addr -> Prop) v r :
  closed h1 R ->
  (forall a, R a -> h2 !! a = h1 !! a) ->
  (forall a, R a -> R' a) ->
  good h1 R v r -> good h2 R' v r.
Proof.
  intros HR Hsame Hsub (Hv & Hs & Hw & Hu).
  split; [by eapply val_ok_mono|]. split; [done|]. split.
  - intros p x Hp Hx. rewrite (lookup_path_stable h1 h2 R); auto.
  - intros p Hp. apply (untouched_stable h1 h2 R); auto.
Qed.

Lemma closed_append h0 h1 new :
  List.length h0 <= List.length h1 ->
  closed h1 (fresh h0 h1) ->
  (forall a, fresh h1 (h1 ++ new) a ->
     dict_ok (h1 ++ new) (fresh h0 (h1 ++ new)) (fresh h0 (h1 ++ new)) a) ->
  closed (h1 ++ new) (fresh h0 (h1 ++ new)).
Proof.
  intros Hle H1 H2 a [Hge Hlt].
  destruct (decide (a < List.length h1)) as [Hl|Hl].
  - assert (Hf : fresh h0 h1 a) by (split; lia).
    eapply dict_ok_mono; [| |eapply dict_ok_frame; [|exact (H1 a Hf)]].
    + intros b [? ?]. split; [done|]. rewrite length_app. lia.
    + intros b [? ?]. split; [done|]. rewrite length_app. lia.
    + by apply lookup_app_l.
  - apply H2. split; lia.
Qed.

Lemma holds_items_val_ok h0 h d rd k x :
  holds_items h0 h d rd -> (k, x) ∈ d -> val_ok (fresh h0 h) (fresh h0 h) x.
Proof.
  intros [Hnd Hrel] Hin. apply (dict_get_NoDup _ _ _ Hnd) in Hin.
  specialize (Hrel k). destruct (dict_get rd k) as [r|]; [|congruence].
  destruct Hrel as (x' & Hx' & Hgood & _). congruence.
Qed.

Lemma load_items_spec h0 l :
  Forall (fun kr => forall h, exists v h',
            pickle_load (snd kr) h = Ret v h' /\ pickled h (snd kr) v h') l ->
  forall h1 d rd,
    (exists new, h1 = h0 ++ new) ->
    closed h1 (fresh h0 h1) ->
    holds_items h0 h1 d rd ->
    exists d' h',
      load_items pickle_load l d h1 = Ret d' h' /\
      (exists new, h' = h0 ++ new) /\
      closed h' (fresh h0 h') /\
      holds_items h0 h' d'
        (fold_left (fun d kr => dict_set d (fst kr) (snd kr)) l rd).
Proof.
  induction 1 as [|[k r] l Hr _ IH]; intros h1 d rd Happ Hcl Hrel.
  - exists d, h1. split; [done|]. split; [done|]. by split.
  - simpl in Hr. destruct (Hr h1) as (v & h2 & Hload & (new2 & ->) & Hcl2 & Hgood).
    destruct Happ as (new1 & ->).
    assert (Hle : List.length h0 <= List.length (h0 ++ new1))
      by (rewrite length_app; lia).
    assert (Hsub : forall a, fresh (h0 ++ new1) ((h0 ++ new1) ++ new2) a ->
                             fresh h0 ((h0 ++ new1) ++ new2) a)
      by (intros a [? ?]; split; [lia | done]).
    assert (Hcl02 : closed ((h0 ++ new1) ++ new2) (fresh h0 ((h0 ++ new1) ++ new2))).
    { apply closed_append; [done..|]. intros a Ha.
      eapply dict_ok_mono; [exact Hsub | exact Hsub | by apply Hcl2]. }
    assert (Hsub1 : forall a, fresh h0 (h0 ++ new1) a ->
                              fresh h0 ((h0 ++ new1) ++ new2) a).
    { intros a [? ?]. split; [done|]. rewrite length_app. lia. }
    destruct (IH ((h0 ++ new1) ++ new2) (dict_set d k v) (dict_set rd k r))
      as (d' & h' & Hrun & Happ' & Hcl' & Hrel').
    + exists (new1 ++ new2). by rewrite app_assoc.
    + done.
    + destruct Hrel as [Hnd Hrel]. split; [by apply dict_set_NoDup|].
      intros k'. rewrite !dict_get_set. destruct (decide (k = k')) as [->|Hne].
      * exists v. split; [done|].
        eapply (good_mono _ _ _ _ _ _ Hcl2); [done | exact Hsub | exact Hgood].
      * specialize (Hrel k'). destruct (dict_get rd k') as [r'|]; [|done].
        destruct Hrel as (x & Hx & Hg). exists x. split; [done|].
        eapply (good_mono _ _ _ _ _ _ Hcl); [| exact Hsub1 | exact Hg].
        intros a [_ Ha]. by apply lookup_app_l.
    + exists d', h'. split; [|done]. simpl.
      by rewrite (bind_eq_Ret _ _ _ _ _ Hload).
Qed.

(** [pickle.load] always returns, and what it returns holds the raw
    data. *)
Lemma pickle_load_spec r : forall h, exists v h',
  pickle_load r h = Ret v h' /\ pickled h r v h'.
Proof.
  induction r as [|s|keys|items IH] using raw_ind'; intros h.
  1-3: eexists _, h; split; [reflexivity|]; split; [by exists []; rewrite app_nil_r|];
    split; [intros a [? ?]; lia|];
    (split; [done|]); (split; [done|]); split;
    [ intros [|k p] x Hp Hx; [by injection Hp as <- | done]
    | by intros [|k p] ].
  destruct (load_items_spec h items IH h [] []) as (d & h1 & Hrun & (new & ->) & Hcl & Hrel).
  { exists []. by rewrite app_nil_r. }
  { intros a [? ?]. lia. }
  { split; [apply NoDup_nil_2 | done]. }
  fold (raw_dict items) in Hrel.
  set (h1 := h ++ new) in *. set (a := List.length h1).
  exists (VRef a), (h1 ++ [ODict d]). split.
  { simpl. by rewrite (bind_eq_Ret _ _ _ _ _ Hrun). }
  assert (Hle : List.length h <= List.length h1)
    by (subst h1; rewrite length_app; lia).
  assert (Hlen : List.length (h1 ++ [ODict d]) = Datatypes.S a)
    by (rewrite length_app; simpl; subst a; lia).
  assert (Ha : (h1 ++ [ODict d]) !! a = Some (ODict d))
    by (subst a; by rewrite lookup_app_r, Nat.sub_diag).
  assert (Hsub : forall b, fresh h h1 b -> fresh h (h1 ++ [ODict d]) b)
    by (intros b [? ?]; split; [done | lia]).
  assert (Hsame : forall b, fresh h h1 b -> (h1 ++ [ODict d]) !! b = h1 !! b)
    by (intros b [_ ?]; by apply lookup_app_l).
  assert (Hcl' : closed (h1 ++ [ODict d]) (fresh h (h1 ++ [ODict d]))).
  { apply closed_append; [done..|]. intros b [Hb1 Hb2].
    assert (b = a) as -> by lia.
    exists d. split; [done|]. split; [apply Hrel|].
    intros k x Hin. eapply val_ok_mono; [| |by eapply holds_items_val_ok];
      intros c' [? ?]; split; lia. }
  assert (Hentry : forall k r', dict_get (raw_dict items) k = Some r' ->
            exists x, dict_get d k = Some x /\
                      good (h1 ++ [ODict d]) (fresh h (h1 ++ [ODict d])) x r').
  { intros k r' Hk. destruct Hrel as [_ Hrel]. specialize (Hrel k).
    rewrite Hk in Hrel. destruct Hrel as (x & Hx & Hg). exists x. split; [done|].
    by eapply (good_mono _ _ _ _ _ _ Hcl). }
  split; [exists (new ++ [ODict d]); by rewrite app_assoc|].
  split; [done|]. split; [simpl; split; lia|]. split; [by exists a|]. split.
  - intros [|k p] x Hp Hx; [by injection Hp as <-|].
    simpl in Hp |- *. rewrite Ha.
    destruct (dict_get (raw_dict items) k) as [r'|] eqn:Ek; [|done].
    destruct (Hentry k r' Ek) as (x0 & -> & _ & _ & Hw & _). by apply Hw.
  - intros [|k p] Hp; [done|]. simpl in Hp |- *. rewrite Ha.
    destruct (dict_get (raw_dict items) k) as [r'|] eqn:Ek.
    + destruct (Hentry k r' Ek) as (x0 & -> & _ & Hs & _ & Hu).
      destruct r' as [| | |items']; simpl in Hs; try done; [by subst x0|].
      destruct Hs as [b ->]. by apply Hu.
    + destruct Hrel as [_ Hrel]. specialize (Hrel k). rewrite Ek in Hrel.
      by rewrite Hrel.
Qed.

(* ===================================================================== *)
(** ** The loader on plain data *)

Lemma plain_lookup h a o : plain h -> h !! a = Some o -> exists items, o = ODict items.
Proof.
  intros Hp Ha. destruct (Hp a (lookup_lt_Some _ _ _ Ha)) as (items & Hi & _).
  exists items. congruence.
Qed.

Lemma truthy_plain rec h v t h' : plain h -> truthy rec v h = Ret t h' -> h' = h.
Proof.
  intros Hp. destruct v as [| | | |a]; try (by intros [= _ <-]).
  unfold truthy, py_len, bind, lookup_obj.
  destruct (h !! a) as [o|] eqn:Ea; [|done].
  destruct (plain_lookup h a o Hp Ea) as [items ->]. by intros [= _ <-].
Qed.

Lemma parent_of_name parent_exceptions c st :
  parent_of parent_exceptions (Some c) st = Ret (parent_name parent_exceptions c) st.
Proof.
  unfold parent_of, parent_name.
  destruct (dict_get parent_exceptions c) as [[|a p]|]; try done;
    by destruct (_ =? _)%nat.
Qed.

Section LoaderSteps.
Variable listdir : list string.
Variable dat_file : string -> option raw.
Variable parent_exceptions : pydict string string.

Let load := load listdir dat_file parent_exceptions.

(** The three ways in which [load] returns: from the cache; with the data
    of the file as it is (for ['root'], or when [merge_inherited] is
    false); with the data of the file merged into a copy of what [load]
    returns for the parent. *)
Lemma load_step_inv n name mi st v st' :
  memo_ok listdir st -> plain (objs st) ->
  load (S n) name mi st = Ret v st' ->
  exists st1,
    (if bool_decide (name = NStr "root") then ret (Some "root")
     else normalize_locale listdir name) st = Ret (canonical listdir name) st1 /\
    memo_ok listdir st1 /\ _cache st1 = _cache st /\ objs st1 = objs st /\
    ((dict_get (_cache st) (canonical listdir name) = Some v /\ st' = st1) \/
     (exists r h2,
        (canonical listdir name = Some "root" \/ mi = false) /\
        dat_file (dat_name (canonical listdir name)) = Some r /\
        pickle_load r (objs st ++ [ODict []]) = Ret v h2 /\
        st' = with_cache (with_objs st1 h2)
                (dict_set (_cache st) (canonical listdir name) v)) \/
     (exists c pv st3 h4 r rv h5 h6,
        canonical listdir name = Some c /\ c <> "root" /\ mi = true /\
        load n (NStr (parent_name parent_exceptions c)) true st1 = Ret pv st3 /\
        copy_value (interp n) pv (objs st3) = Ret v h4 /\
        dat_file (c +:+ ".dat") = Some r /\
        pickle_load r h4 = Ret rv h5 /\
        merge n v rv h5 = Ret tt h6 /\
        st' = with_cache (with_objs st3 h6) (dict_set (_cache st3) (Some c) v))).
Proof.
  intros Hok Hplain H. unfold load in H. simpl in H.
  destruct (canonical_step listdir name st Hok) as (st1 & E1 & Hok1 & Hc1 & Ho1).
  rewrite (bind_eq_Ret _ _ _ _ _ E1) in H.
  exists st1. split; [done|]. split; [done|]. split; [done|]. split; [done|].
  unfold bind at 1, get_state in H.
  apply bind_Ret in H as (t & st2 & Et & H).
  apply on_heap_Ret in Et as (h2 & Et & ->).
  assert (h2 = objs st1) as ->.
  { eapply truthy_plain; [|exact Et]. by rewrite Ho1. }
  rewrite with_objs_id in H. rewrite Hc1 in Et, H.
  set (canon := canonical listdir name) in *.
  destruct t; simpl in H.
  - left. injection H as <- <-. split; [|done].
    by destruct (dict_get (_cache st) canon).
  - right. apply bind_Ret in H as (data0 & st3 & Ebase & H).
    destruct (dat_file (dat_name canon)) as [r|] eqn:Efile; [|done].
    apply bind_Ret in H as (data & st4 & Edata & H).
    unfold bind, get_state, put_state, ret in H. simpl in H.
    injection H as <- <-.
    destruct (bool_decide (canon = Some "root")) eqn:Eroot; simpl in Ebase, Edata.
    + (* root *)
      left. apply on_heap_Ret in Ebase as (h3 & Ebase & ->).
      injection Ebase as <- <-.
      apply on_heap_Ret in Edata as (h4 & Edata & ->). simpl in Edata.
      rewrite Ho1 in Edata. exists r, h4.
      apply bool_decide_eq_true in Eroot.
      split; [by left|]. split; [done|]. split; [done|].
      simpl. by rewrite Hc1.
    + destruct mi; simpl in Ebase, Edata.
      * (* merged *)
        right. apply bool_decide_eq_false in Eroot.
        destruct canon as [c|] eqn:Ecanon; [|done].
        apply bind_Ret in Ebase as (p & st4' & Eparent & Ebase).
        rewrite parent_of_name in Eparent. injection Eparent as <- <-.
        apply bind_Ret in Ebase as (pv & st5 & Eload & Ecopy).
        apply on_heap_Ret in Ecopy as (h4 & Ecopy & ->).
        apply bind_Ret in Edata as (rv & st6 & Epickle & Edata).
        apply on_heap_Ret in Epickle as (h5 & Epickle & ->).
        apply bind_Ret in Edata as ([] & st7 & Emerge & Edata).
        apply on_heap_Ret in Emerge as (h6 & Emerge & ->).
        injection Edata as <- <-. simpl in *.
        exists c, pv, st5, h4, r, rv, h5, h6.
        split; [done|]. split; [congruence|]. split; [done|].
        split; [done|]. split; [done|]. split; [done|]. split; [done|].
        split; [done|]. done.
      * (* merge_inherited is false *)
        left. apply on_heap_Ret in Ebase as (h3 & Ebase & ->).
        injection Ebase as <- <-.
        apply on_heap_Ret in Edata as (h4 & Edata & ->). simpl in Edata.
        rewrite Ho1 in Edata. exists r, h4.
        split; [by right|]. split; [done|]. split; [done|].
        simpl. by rewrite Hc1.
Qed.
End LoaderSteps.

Lemma plain_append h new :
  plain h ->
  (forall a, fresh h (h ++ new) a ->
     dict_ok (h ++ new) (fun b => b < List.length (h ++ new))
                        (fun b => b < List.length (h ++ new)) a) ->
  plain (h ++ new).
Proof.
  intros Hp Hnew a Ha.
  destruct (decide (a < List.length h)) as [Hl|Hl].
  - eapply dict_ok_mono; [| |eapply dict_ok_frame; [|exact (Hp a Hl)]].
    + intros b Hb. cbn beta in *. rewrite length_app. lia.
    + intros b Hb. cbn beta in *. rewrite length_app. lia.
    + by apply lookup_app_l.
  - apply Hnew. split; lia.
Qed.

Lemma plain_copy h a items :
  plain h -> h !! a = Some (ODict items) -> plain (h ++ [ODict items]).
Proof.
  intros Hp Ha. apply plain_append; [done|]. intros b [Hb1 Hb2].
  rewrite length_app in Hb2. simpl in Hb2.
  assert (b = List.length h) as -> by lia.
  destruct (Hp a (lookup_lt_Some _ _ _ Ha)) as (items' & Hi & Hnd & Hv).
  assert (items' = items) as -> by congruence.
  exists items. split; [by rewrite lookup_app_r, Nat.sub_diag|]. split; [done|].
  intros k v Hin. eapply val_ok_mono; [| |by eapply Hv];
    intros c Hc; cbn beta in *; rewrite length_app; lia.
Qed.

Lemma plain_alloc_empty h : plain h -> plain (h ++ [ODict []]).
Proof.
  intros Hp. apply plain_append; [done|]. intros b [Hb1 Hb2].
  rewrite length_app in Hb2. simpl in Hb2.
  assert (b = List.length h) as -> by lia.
  exists []. split; [by rewrite lookup_app_r, Nat.sub_diag|].
  split; [apply NoDup_nil_2|]. intros k v Hin. by apply elem_of_nil in Hin.
Qed.

Lemma plain_pickled h r v h' : plain h -> pickled h r v h' -> plain h'.
Proof.
  intros Hp ((new & ->) & Hcl & _). apply plain_append; [done|].
  intros a Ha. eapply dict_ok_mono; [| |by apply Hcl]; by intros b [_ ?].
Qed.

Lemma merge_not_dict n c rv h h' r :
  shallow rv r -> merge n c rv h = Ret tt h' -> exists ritems a, r = RDict ritems /\ rv = VRef a.
Proof.
  intros Hs H. destruct r as [| | |ritems]; simpl in Hs.
  1-3: subst rv; destruct n; done.
  destruct Hs as [a ->]. eauto.
Qed.

(** The merge that [load] performs: the data of the file into a copy of the
    dataset of the parent. *)
Lemma merge_in_loader n h3 pa pitems r rv h5 h6 :
  plain h3 ->
  h3 !! pa = Some (ODict pitems) ->
  pickled (h3 ++ [ODict pitems]) r rv h5 ->
  merge n (VRef (List.length h3)) rv h5 = Ret tt h6 ->
  exists ritems,
    r = RDict ritems /\
    plain h6 /\
    (forall a, a < List.length h3 -> h6 !! a = h3 !! a) /\
    (forall p x, raw_lookup r p = Some x -> raw_leaf x ->
                 deep_get h6 (VRef (List.length h3)) p = Some (raw_value x)) /\
    (forall p x, deep_get h3 (VRef pa) p = Some x -> raw_untouched r p ->
                 deep_get h6 (VRef (List.length h3)) p = Some x).
Proof.
  intros Hp Hpa Hpick Hmerge.
  set (c := List.length h3) in *. set (h4 := h3 ++ [ODict pitems]) in *.
  destruct Hpick as ((new & ->) & Hcl & Hv & Hs & Hw & Hu).
  destruct (merge_not_dict _ _ _ _ _ _ Hs Hmerge) as (ritems & ra & -> & ->).
  exists ritems. split; [done|].
  set (h5 := h4 ++ new) in *.
  set (T := fun a => a < c). set (S := fresh h4 h5).
  assert (Hlen4 : List.length h4 = Datatypes.S c)
    by (subst h4 c; rewrite length_app; simpl; lia).
  assert (Hlen5 : List.length h4 <= List.length h5)
    by (subst h5; rewrite length_app; lia).
  assert (H35 : forall a, a < c -> h5 !! a = h3 !! a).
  { intros a Ha. subst h5 h4. rewrite !lookup_app_l; [done | done |].
    rewrite length_app. subst c. lia. }
  assert (Hp4 : plain h4) by by eapply plain_copy.
  assert (Hpre : merge_pre h5 T S c ra).
  { split.
    - intros a Ha. eapply dict_ok_frame; [by apply H35|]. by apply Hp.
    - done.
    - destruct (Hp pa (lookup_lt_Some _ _ _ Hpa)) as (items' & Hi & Hnd & Hvs).
      assert (items' = pitems) as -> by congruence.
      exists pitems. split; [|done]. subst h5 h4.
      rewrite lookup_app_l by (rewrite length_app; simpl; lia).
      by rewrite lookup_app_r, Nat.sub_diag.
    - unfold T. lia.
    - intros [? ?]. lia.
    - exact Hv. }
  destruct (merge_plain n h5 T S c ra h6 Hpre Hmerge) as [Hf Hwin Hkeep].
  pose proof (frame_len _ _ _ _ _ Hf) as Hlen6.
  split.
  { intros a Ha.
    assert (Hcase : a < c \/ a = c \/ fresh h4 h5 a \/ fresh h5 h6 a)
      by (unfold fresh; lia).
    destruct Hcase as [Ht|[->|[Hs'|Hfr]]].
    - eapply dict_ok_mono;
        [| |by apply (frame_closed_T h5 T S c ra Hpre h6 Hf)]; unfold T; lia.
    - eapply dict_ok_mono; [| |apply (frame_c _ _ _ _ _ Hf)]; unfold T, S, fresh; lia.
    - eapply dict_ok_mono;
        [| |by apply (frame_closed_S h5 T S c ra Hpre h6 Hf)]; unfold S, fresh; lia.
    - eapply dict_ok_mono; [| |by apply (frame_fresh _ _ _ _ _ Hf)];
        unfold T, S, fresh; lia. }
  split.
  { intros a Ha. rewrite (frame_same _ _ _ _ _ Hf) by lia. by apply H35. }
  split.
  - intros p x Hpx Hx. apply Hwin; [by apply Hw | by destruct x].
  - intros p x Hpx Hun. apply Hkeep; [|by apply Hu].
    assert (Hne : p <> []) by (intros ->; done).
    assert (HTpa : T pa) by (apply lookup_lt_Some in Hpa; exact Hpa).
    rewrite <- Hpx, <- (deep_get_copy h3 T pa pitems p Hp HTpa Hpa Hne).
    apply (deep_get_stable h4 h5 (fun a => a < List.length h4)); [done| |simpl; lia].
    intros a Ha. by apply lookup_app_l.
Qed.

Lemma copy_value_plain rec h pv v h4 :
  plain h -> copy_value rec pv h = Ret v h4 ->
  exists pa pitems,
    pv = VRef pa /\ h !! pa = Some (ODict pitems) /\
    v = VRef (List.length h) /\ h4 = h ++ [ODict pitems].
Proof.
  intros Hp. destruct pv as [| | | |pa]; try done.
  unfold copy_value, bind, lookup_obj.
  destruct (h !! pa) as [o|] eqn:Ea; [|done].
  destruct (plain_lookup h pa o Hp Ea) as [items ->].
  unfold alloc. intros [= <- <-]. by exists pa, items.
Qed.

Lemma pickle_load_pickled r h v h' :
  pickle_load r h = Ret v h' -> pickled h r v h'.
Proof.
  intros H. destruct (pickle_load_spec r h) as (v' & h'' & E & Hp).
  rewrite H in E. by injection E as <- <-.
Qed.

Section LoaderPlain.
Variable listdir : list string.
Variable dat_file : string -> option raw.
Variable parent_exceptions : pydict string string.

Let load := load listdir dat_file parent_exceptions.

(** [load] keeps the heap plain and writes to no object that exists when
    it is called. *)
Lemma load_plain n : forall name mi st v st',
  memo_ok listdir st -> plain (objs st) ->
  load n name mi st = Ret v st' ->
  memo_ok listdir st' /\ plain (objs st') /\
  (forall a, a < List.length (objs st) -> objs st' !! a = objs st !! a).
Proof.
  induction n as [|n IH]; intros name mi st v st' Hok Hp H; [done|].
  destruct (load_step_inv listdir dat_file parent_exceptions n name mi st v st' Hok Hp H)
    as (st1 & _ & Hok1 & Hc1 & Ho1 & [[_ ->]|[(r & h2 & _ & _ & Hpick & ->)|Hm]]).
  - by rewrite Ho1.
  - apply pickle_load_pickled in Hpick as Hpk.
    split; [done|]. simpl. split.
    + eapply plain_pickled; [|exact Hpk]. by apply plain_alloc_empty.
    + intros a Ha. destruct Hpk as ((new & ->) & _).
      rewrite !lookup_app_l; [done | done |]. rewrite length_app. lia.
  - destruct Hm as (c & pv & st3 & h4 & r & rv & h5 & h6 & _ & _ & _ &
                    Hload & Hcopy & _ & Hpick & Hmerge & ->).
    destruct (IH _ _ _ _ _ Hok1 ltac:(by rewrite Ho1) Hload) as (Hok3 & Hp3 & Hf3).
    destruct (copy_value_plain _ _ _ _ _ Hp3 Hcopy) as (pa & pitems & -> & Hpa & -> & ->).
    apply pickle_load_pickled in Hpick.
    destruct (merge_in_loader n _ pa pitems r rv h5 h6 Hp3 Hpa Hpick Hmerge)
      as (ritems & _ & Hp6 & Hf6 & _).
    split; [done|]. simpl. split; [done|].
    intros a Ha. rewrite Ho1 in Hf3.
    assert (a < List.length (objs st3)).
    { destruct (lookup_lt_is_Some_2 (objs st) a Ha) as [o Ho].
      rewrite <- Hf3 in Ho by done. by apply lookup_lt_Some in Ho. }
    rewrite Hf6 by done. by apply Hf3.
Qed.

End LoaderPlain.

Lemma plain_nil : plain [].
Proof. intros a Ha. simpl in Ha. lia. Qed.


